(** * GDMC procedural generation: area clearing and the tree-house builder

    A shallow embedding of [old/setup_files/clearArea_calc.py]
    ([flatten_area], [clear_area]) and of [tree_house.py]
    ([build_treehouse]).  The scripts are straight-line loops around the
    calls [editor.getBlock] and [editor.placeBlock] of the world-editing
    client; the client is modelled as a store of blocks indexed by
    coordinate together with the log of the placement calls issued so far. *)

From stdpp Require Import gmap strings list list_numbers.
From Equations Require Import Equations.
From Equations.Prop Require Logic.

Local Open Scope Z_scope.
Local Open Scope string_scope.

(** ** Data *)

(** A voxel coordinate [(x, y, z)].  Python integers are unbounded. *)
Definition Pos : Type := Z * Z * Z.

(** [starting_pos + np.array([x, y, z])]: componentwise addition. *)
Definition vadd (p q : Pos) : Pos :=
  match p, q with
  | (px, py, pz), (qx, qy, qz) => (px + qx, py + qy, pz + qz)
  end.

(** [gdpc.Block]: the scripts only build blocks from an id and only read
    the id of the blocks they get back. *)
Record Block : Type := mkBlock { id : string }.

#[global] Instance Block_eq_dec : EqDecision Block.
Proof. solve_decision. Defined.

(** A two-dimensional numpy array of integers: its shape and its cells. *)
Record ndarray : Type := mkArray {
  shape : Z * Z;
  item : Z -> Z -> Z
}.

(** [gdpc.Rect]: an XZ rectangle. *)
Module Rect.
Record t : Type := mk { _offset : Z * Z; size : Z * Z }.
End Rect.

(** [gdpc.Box]; [begin] is the corner with the smallest coordinates. *)
Module Box.
Record t : Type := mk { offset : Pos; size : Pos }.
Definition begin (b : t) : Pos := offset b.
(** [Box.toRect()]: the XZ rectangle of the box. *)
Definition toRect (b : t) : Rect.t :=
  Rect.mk ((offset b).1.1, (offset b).2) ((size b).1.1, (size b).2).
End Box.

(** An argument of [print]. *)
Inductive PyVal : Type :=
  | PStr (s : string)
  | PInt (n : Z).

(** Exceptions the modelled code can raise. *)
Inductive exn : Type :=
  | KeyError (k : string)
  | IndexError.

Inductive res (A : Type) : Type :=
  | Ok (a : A)
  | Raise (e : exn).
Arguments Ok {A} a.
Arguments Raise {A} e.

(** ** The store

    [world] is the running world the editor reads and writes, [placed] the
    [placeBlock] calls issued so far (oldest first), [heightmaps] the
    dictionary [world_slice.heightmaps], [stdout] the lines printed so far,
    each as the tuple of arguments given to [print].  [random.random()]
    returns a double [k / 2^53] with [0 <= k < 2^53]; [rng] is the sequence
    of numerators [k] the generator will produce and [rng_pos] the number of
    draws already made. *)
Record State : Type := mkState {
  world : Pos -> Block;
  placed : list (Pos * Block);
  heightmaps : gmap string ndarray;
  stdout : list (list PyVal);
  rng : nat -> Z;
  rng_pos : nat
}.

(** State and exception monad: an exception keeps the effects made before
    it was raised. *)
Definition M (A : Type) : Type := State -> State * res A.

#[global] Instance M_ret : MRet M := fun A a st => (st, Ok a).

#[global] Instance M_bind : MBind M := fun A B f m st =>
  match m st with
  | (st', Ok a) => f a st'
  | (st', Raise e) => (st', Raise e)
  end.

Definition exec {A} (m : M A) (st : State) : State := fst (m st).
Definition result {A} (m : M A) (st : State) : res A := snd (m st).

(** The calls [m] adds to the log when run from [st]. *)
Definition calls_of {A} (m : M A) (st : State) : list (Pos * Block) :=
  drop (length (placed st)) (placed (exec m st)).

(** ** Primitives of the client and of the runtime *)

Definition set_block (w : Pos -> Block) (p : Pos) (b : Block) : Pos -> Block :=
  fun q => if decide (q = p) then b else w q.

(** [editor.getBlock(p)] *)
Definition getBlock (p : Pos) : M Block := fun st => (st, Ok (world st p)).

(** [editor.placeBlock(p, b)] *)
Definition placeBlock (p : Pos) (b : Block) : M unit := fun st =>
  (mkState (set_block (world st) p b) (placed st ++ [(p, b)])
           (heightmaps st) (stdout st) (rng st) (rng_pos st), Ok tt).

(** [print(arg, ...)] *)
Definition print (args : list PyVal) : M unit := fun st =>
  (mkState (world st) (placed st) (heightmaps st) (stdout st ++ [args])
           (rng st) (rng_pos st), Ok tt).

(** [world_slice.heightmaps[key]] *)
Definition heightmap_get (key : string) : M ndarray := fun st =>
  match heightmaps st !! key with
  | Some a => (st, Ok a)
  | None => (st, Raise (KeyError key))
  end.

(** One axis of a numpy index: negative indices count from the end. *)
Definition axis_index (n i : Z) : option Z :=
  if decide (0 <= i < n) then Some i
  else if decide (- n <= i < 0) then Some (i + n)
  else None.

(** [a[(i, j)]] *)
Definition array_get (a : ndarray) (i j : Z) : M Z := fun st =>
  match axis_index (fst (shape a)) i, axis_index (snd (shape a)) j with
  | Some i', Some j' => (st, Ok (item a i' j'))
  | _, _ => (st, Raise IndexError)
  end.

(** [random.random() < density], for a density [density_num / 2^53]. *)
Definition random_lt (density_num : Z) : M bool := fun st =>
  (mkState (world st) (placed st) (heightmaps st) (stdout st)
           (rng st) (S (rng_pos st)),
   Ok (bool_decide (rng st (rng_pos st) < density_num))).

(** [range(a, b)] *)
Definition range (a b : Z) : list Z := seqZ a (b - a).

(** [range(a, b, step)] for a positive [step]. *)
Definition range_step (a b step : Z) : list Z :=
  (fun i : nat => a + Z.of_nat i * step) <$>
    seq 0 (Z.to_nat ((b - a + step - 1) `div` step)).

(** [for x in l: body(x)] *)
Fixpoint for_ {A} (l : list A) (body : A -> M unit) : M unit :=
  match l with
  | [] => mret tt
  | x :: l' => body x ;; for_ l' body
  end.

(** [sub in s] on strings. *)
Fixpoint contains (sub s : string) : bool :=
  String.prefix sub s ||
  match s with
  | EmptyString => false
  | String _ s' => contains sub s'
  end.

(** ** [old/setup_files/clearArea_calc.py] *)

Definition grass_block : Block := mkBlock "grass_block".
Definition air : Block := mkBlock "air".

(** [flatten_area(heightmap, buildRect, editor, build_area)] *)
Definition flatten_area (heightmap : ndarray) (buildRect : Rect.t)
    (build_area : Box.t) : M unit :=
  let min := (Box.begin build_area).1.2 - 1 in
  let max := (Box.size build_area).1.2 + min in
  print [PStr "max height is: "; PInt max] ;;
  print [PStr "min height is: "; PInt min] ;;
  for_ (range (Rect._offset buildRect).1
              ((Rect._offset buildRect).1 + (Rect.size buildRect).1))
    (fun x =>
     for_ (range (Rect._offset buildRect).2
                 ((Rect._offset buildRect).2 + (Rect.size buildRect).2))
       (fun z =>
        block ← getBlock (x, min, z);
        print [PStr (id block)] ;;
        placeBlock (x, min, z) grass_block)) ;;
  print [PStr "Build area flattened!"].

(** The guard of the descent loop of [clear_area]:
    [("log" in block.id or "leaves" in block.id or "mushroom" in block.id)
     and start > 0]. *)
Definition descent_guard (block : Block) (start : Z) : bool :=
  (contains "log" (id block) || contains "leaves" (id block)
   || contains "mushroom" (id block))
  && bool_decide (start > 0).

(** The descent loop of [clear_area], entered with [start] and
    [block = editor.getBlock((x, start - 1, z))]; it returns the values of
    [start] and [block] on exit.
[[
    while (...) and start > 0:
        start = start - 1
        block = editor.getBlock((x, start - 1, z))
]] *)
Equations? descent (x z start : Z) (block : Block) (st : State)
  : State * res (Z * Block) by wf (Z.to_nat start) lt :=
  descent x z start block st with Logic.inspect (descent_guard block start) := {
    | exist _ true Hg =>
        @mbind M _ _ _
          (fun block' st' => descent x z (start - 1) block' st')
          (getBlock (x, start - 1 - 1, z)) st
    | exist _ false _ => (st, Ok (start, block))
  }.
Proof.
  unfold descent_guard in Hg. apply andb_prop in Hg as [_ Hg].
  apply bool_decide_eq_true_1 in Hg. lia.
Qed.

(** [clear_area(heightmap, buildRect, editor, build_area, world_slice)] *)
Definition clear_area (heightmap : ndarray) (buildRect : Rect.t)
    (build_area : Box.t) : M unit :=
  bottom ← heightmap_get "MOTION_BLOCKING_NO_LEAVES";
  top ← heightmap_get "WORLD_SURFACE";
  for_ (range (Rect._offset buildRect).1
              ((Rect._offset buildRect).1 + (Rect.size buildRect).1))
    (fun x =>
     for_ (range (Rect._offset buildRect).2
                 ((Rect._offset buildRect).2 + (Rect.size buildRect).2))
       (fun z =>
        start ← array_get bottom (x - (Rect._offset buildRect).1)
                                 (z - (Rect._offset buildRect).2);
        end_ ← array_get top (x - (Rect._offset buildRect).1)
                             (z - (Rect._offset buildRect).2);
        block ← getBlock (x, start - 1, z);
        '(start, block) ← descent x z start block;
        (if contains "dirt" (id block)
         then placeBlock (x, start - 1, z) air
         else mret tt) ;;
        for_ (range start end_) (fun y => placeBlock (x, y, z) air))) ;;
  print [PStr "Done!"].

(** ** [tree_house.py] *)

Definition oak_log : Block := mkBlock "oak_log".
Definition glass : Block := mkBlock "glass".
Definition oak_slab : Block := mkBlock "oak_slab".
Definition ladder : Block := mkBlock "ladder".
Definition oak_fence_gate : Block := mkBlock "oak_fence_gate".
Definition spruce_leaves : Block := mkBlock "spruce_leaves".

(** [x in (a, b)] *)
Definition in2 (x a b : Z) : bool := bool_decide (x = a) || bool_decide (x = b).

(** [leaf_density = 0.5], as a numerator over [2^53]. *)
Definition leaf_density : Z := 2 ^ 52.

Section build_treehouse.
Variables (starting_pos : Pos).
Variables (tree_height platform_height platform_radius house_height : Z).
Variable (block_type : Block).

(** Create the platform *)
Definition platform_pass : M unit :=
  for_ (range (- platform_radius) (platform_radius + 1)) (fun x =>
    for_ (range (- platform_radius) (platform_radius + 1)) (fun z =>
      if bool_decide (x * x + z * z <= platform_radius * platform_radius)
      then placeBlock (vadd starting_pos (x, platform_height, z)) oak_log
      else mret tt)).

(** Build walls *)
Definition wall_pass : M unit :=
  for_ (range 0 house_height) (fun y =>
    for_ (range (- platform_radius) (platform_radius + 1)) (fun x =>
      for_ (range (- platform_radius) (platform_radius + 1)) (fun z =>
        if in2 x (- platform_radius) platform_radius
           || in2 z (- platform_radius) platform_radius
        then placeBlock
               (vadd starting_pos (x, platform_height + 1 + y, z)) block_type
        else placeBlock
               (vadd starting_pos (x, platform_height + 1 + y, z)) air))).

(** The trunk: [for y in range(tree_height)] *)
Definition trunk_pass : M unit :=
  for_ (range 0 tree_height) (fun y =>
    placeBlock (vadd starting_pos (0, y, 0)) oak_log).

(** Add windows.  In the source condition [and] binds tighter than [or]. *)
Definition window_pass : M unit :=
  for_ (range 1 (house_height - 1)) (fun y =>
    for_ (range_step (- platform_radius) platform_radius 2) (fun x =>
      for_ (range_step (- platform_radius) platform_radius 2) (fun z =>
        if in2 x (- platform_radius) (platform_radius - 1)
           || (in2 z (- platform_radius) (platform_radius - 1)
               && (negb (bool_decide (x = platform_radius))
                   || negb (bool_decide (z = - platform_radius))))
        then placeBlock
               (vadd starting_pos (x, platform_height + y, z)) glass
        else mret tt))).

(** Add a roof *)
Definition roof_pass : M unit :=
  for_ (range (- platform_radius - 1) (platform_radius + 2)) (fun x =>
    for_ (range (- platform_radius - 1) (platform_radius + 2)) (fun z =>
      placeBlock
        (vadd starting_pos (x, platform_height + house_height, z))
        oak_slab)).

(** Add a ladder *)
Definition ladder_pass : M unit :=
  for_ (range 1 (platform_height + 3)) (fun y =>
    placeBlock (vadd starting_pos (0, y, -1)) ladder).

(** Add a door *)
Definition door_pass : M unit :=
  placeBlock
    (vadd starting_pos (1, platform_height + 1, - platform_radius))
    oak_fence_gate.

(** Add random spruce leaves around the house and on top.  The draw
    [random.random()] is only made when the geometric test holds. *)
Definition leaf_pass : M unit :=
  for_ (range 0 (house_height + 2)) (fun y =>
    for_ (range (- platform_radius - 1) (platform_radius + 2)) (fun x =>
      for_ (range (- platform_radius - 1) (platform_radius + 2)) (fun z =>
        if (in2 x (- platform_radius - 1) (platform_radius + 1)
            || in2 z (- platform_radius - 1) (platform_radius + 1))
           || bool_decide (y = house_height + 1)
        then
          hit ← random_lt leaf_density;
          if (hit : bool)
          then placeBlock
                 (vadd starting_pos (x, platform_height + y, z))
                 spruce_leaves
          else mret tt
        else mret tt))).

(** The passes that come before the leaf scatter, in source order. *)
Definition structure_passes : M unit :=
  platform_pass ;; wall_pass ;; trunk_pass ;; window_pass ;;
  roof_pass ;; ladder_pass ;; door_pass.

(** [build_treehouse(editor, starting_pos, tree_height, platform_height,
    platform_radius, house_height, block_type)] *)
Definition build_treehouse : M unit :=
  structure_passes ;; leaf_pass.
End build_treehouse.

(** The call at the end of the script:
    [build_treehouse(editor, buildArea.begin, 15, 10, 3, 4, Block("oak_log"))] *)
Definition tree_house_main (buildArea : Box.t) : M unit :=
  build_treehouse (Box.begin buildArea) 15 10 3 4 oak_log.

(** A store to run the scripts in: a world of air, nothing placed or
    printed yet, and a generator whose draws are all [k / 2^53]. *)
Definition blank_state (hm : gmap string ndarray) (k : Z) : State :=
  mkState (fun _ => air) [] hm [] (fun _ => k) 0.

(** ** Specification-side definitions *)

(** The effect on the store of a sequence of [placeBlock] calls. *)
Definition apply_calls (cs : list (Pos * Block)) (st : State) : State :=
  mkState (foldl (fun w c => set_block w c.1 c.2) (world st) cs)
          (placed st ++ cs)
          (heightmaps st) (stdout st) (rng st) (rng_pos st).

(** [m] does nothing but issue the calls [cs], whatever the store. *)
Definition emits (m : M unit) (cs : list (Pos * Block)) : Prop :=
  forall st, m st = (apply_calls cs st, Ok tt).

(** ** The calls of the deterministic passes of [build_treehouse] *)

Section treehouse_calls.
Variables (starting_pos : Pos).
Variables (tree_height platform_height platform_radius house_height : Z).
Variable (block_type : Block).

Definition platform_calls : list (Pos * Block) :=
  x ← range (- platform_radius) (platform_radius + 1);
  z ← range (- platform_radius) (platform_radius + 1);
  if bool_decide (x * x + z * z <= platform_radius * platform_radius)
  then [(vadd starting_pos (x, platform_height, z), oak_log)]
  else [].

Definition wall_calls : list (Pos * Block) :=
  y ← range 0 house_height;
  x ← range (- platform_radius) (platform_radius + 1);
  z ← range (- platform_radius) (platform_radius + 1);
  [(vadd starting_pos (x, platform_height + 1 + y, z),
    if in2 x (- platform_radius) platform_radius
       || in2 z (- platform_radius) platform_radius
    then block_type else air)].

Definition trunk_calls : list (Pos * Block) :=
  y ← range 0 tree_height; [(vadd starting_pos (0, y, 0), oak_log)].

Definition window_calls : list (Pos * Block) :=
  y ← range 1 (house_height - 1);
  x ← range_step (- platform_radius) platform_radius 2;
  z ← range_step (- platform_radius) platform_radius 2;
  if in2 x (- platform_radius) (platform_radius - 1)
     || (in2 z (- platform_radius) (platform_radius - 1)
         && (negb (bool_decide (x = platform_radius))
             || negb (bool_decide (z = - platform_radius))))
  then [(vadd starting_pos (x, platform_height + y, z), glass)]
  else [].

Definition roof_calls : list (Pos * Block) :=
  x ← range (- platform_radius - 1) (platform_radius + 2);
  z ← range (- platform_radius - 1) (platform_radius + 2);
  [(vadd starting_pos (x, platform_height + house_height, z), oak_slab)].

Definition ladder_calls : list (Pos * Block) :=
  y ← range 1 (platform_height + 3); [(vadd starting_pos (0, y, -1), ladder)].

Definition door_calls : list (Pos * Block) :=
  [(vadd starting_pos (1, platform_height + 1, - platform_radius),
    oak_fence_gate)].

Definition structure_calls : list (Pos * Block) :=
  platform_calls ++ wall_calls ++ trunk_calls ++ window_calls ++
  roof_calls ++ ladder_calls ++ door_calls.

(** Every position the leaf pass can target, in loop order. *)
Definition leaf_sites : list (Pos * Block) :=
  y ← range 0 (house_height + 2);
  x ← range (- platform_radius - 1) (platform_radius + 2);
  z ← range (- platform_radius - 1) (platform_radius + 2);
  if (in2 x (- platform_radius - 1) (platform_radius + 1)
      || in2 z (- platform_radius - 1) (platform_radius + 1))
     || bool_decide (y = house_height + 1)
  then [(vadd starting_pos (x, platform_height + y, z), spruce_leaves)]
  else [].
End treehouse_calls.

(** One iteration of the descent loop of [clear_area] in the world [w]: the
    guard holds, [start] is decremented and the block below it is read. *)
Inductive descent_iter (w : Pos -> Block) (x z : Z)
  : Z * Block -> Z * Block -> Prop :=
  | descent_iter_step start block :
      descent_guard block start = true ->
      descent_iter w x z (start, block) (start - 1, w (x, start - 1 - 1, z)).

(** [m] leaves the dictionary of heightmaps as it found it, whether it
    returns or raises. *)
Definition keeps_heightmaps {A} (m : M A) : Prop :=
  forall st, heightmaps (exec m st) = heightmaps st.

(** [m] returns, and its effect on the editor is that of the calls [cs],
    whatever the store it is run in. *)
Definition issues (m : M unit) (cs : list (Pos * Block)) : Prop :=
  forall st,
    result m st = Ok tt /\
    placed (exec m st) = (placed st ++ cs)%list /\
    world (exec m st) = foldl (fun w c => set_block w c.1 c.2) (world st) cs.

(** The calls of [flatten_area]. *)
Definition flatten_calls (buildRect : Rect.t) (build_area : Box.t)
  : list (Pos * Block) :=
  x ← range (Rect._offset buildRect).1
            ((Rect._offset buildRect).1 + (Rect.size buildRect).1);
  z ← range (Rect._offset buildRect).2
            ((Rect._offset buildRect).2 + (Rect.size buildRect).2);
  [((x, (Box.begin build_area).1.2 - 1, z), grass_block)].

(** The column [(x, z)] lies in the rectangle. *)
Definition in_rect (r : Rect.t) (x z : Z) : Prop :=
  (Rect._offset r).1 <= x < (Rect._offset r).1 + (Rect.size r).1 /\
  (Rect._offset r).2 <= z < (Rect._offset r).2 + (Rect.size r).2.

(** [m] returns after placing some of the calls [sites], in their order,
    and nothing else. *)
Definition scatters (m : M unit) (sites : list (Pos * Block)) : Prop :=
  forall st, exists cs,
    cs `sublist_of` sites /\
    result m st = Ok tt /\
    placed (exec m st) = (placed st ++ cs)%list.

(** The build area of the example in [tree_house.py]:
    [/setbuildarea ~0 0 ~0 ~64 200 ~64], with the player at the origin. *)
Definition example_area : Box.t := Box.mk (0, 0, 0) (64, 200, 64).

(** The value of [start] when the descent loop of column [(x, z)] exits,
    the loop being entered with [start] in the store [st]. *)
Definition descent_start (st : State) (x z start : Z) : Z :=
  match (descent x z start (world st (x, start - 1, z)) st).2 with
  | Ok c => c.1
  | Raise _ => start
  end.

(** The calls [clear_area] makes for the column [(x, z)], read off its loop
    body: the boundary block if it is dirt, then the blocks from the
    descended start up to the surface. *)
Definition column_calls (st : State) (bottom top : ndarray)
    (buildRect : Rect.t) (x z : Z) : list (Pos * Block) :=
  let start := descent_start st x z
                 (item bottom (x - (Rect._offset buildRect).1)
                              (z - (Rect._offset buildRect).2)) in
  let end_ := item top (x - (Rect._offset buildRect).1)
                       (z - (Rect._offset buildRect).2) in
  (if contains "dirt" (id (world st (x, start - 1, z)))
   then [((x, start - 1, z), air)] else [])
  ++ ((fun y => ((x, y, z), air)) <$> range start end_).

Definition clear_calls (st : State) (bottom top : ndarray)
    (buildRect : Rect.t) : list (Pos * Block) :=
  x ← range (Rect._offset buildRect).1
            ((Rect._offset buildRect).1 + (Rect.size buildRect).1);
  z ← range (Rect._offset buildRect).2
            ((Rect._offset buildRect).2 + (Rect.size buildRect).2);
  column_calls st bottom top buildRect x z.

(** The array covers the rectangle: every column of the rectangle indexes
    a cell of the array. *)
Definition fits (buildRect : Rect.t) (a : ndarray) : Prop :=
  (Rect.size buildRect).1 <= (shape a).1 /\
  (Rect.size buildRect).2 <= (shape a).2.

(** Two stores hold the same blocks in the column [(x, z)]. *)
Definition same_column (st st' : State) (x z : Z) : Prop :=
  forall y, world st' (x, y, z) = world st (x, y, z).

(** Every call [m] issues, in any store and whether it returns or raises,
    targets a position in [P]; the log only grows. *)
Definition confined (P : Pos -> Prop) {A} (m : M A) : Prop :=
  forall st, exists cs,
    placed (exec m st) = (placed st ++ cs)%list /\
    Forall (fun c => P c.1) cs.

(** The position is within [d] of [c] along x and along z. *)
Definition near (c : Pos) (d : Z) (p : Pos) : Prop :=
  c.1.1 - d <= p.1.1 <= c.1.1 + d /\ c.2 - d <= p.2 <= c.2 + d.

(** A small store to run [clear_area] in: a 2 x 2 rectangle at the origin
    whose ground is at height 3 and whose surface is at height 5, with a
    dirt block under a log in the column [(0, 0)]. *)
Definition flat_array (n m v : Z) : ndarray := mkArray (n, m) (fun _ _ => v).

Definition example_rect : Rect.t := Rect.mk (0, 0) (2, 2).

Definition example_heightmaps : gmap string ndarray :=
  {[ "MOTION_BLOCKING_NO_LEAVES" := flat_array 2 2 3;
     "WORLD_SURFACE" := flat_array 2 2 5 ]}.

Definition example_state : State :=
  mkState (fun p => if decide (p = (0, 2, 0)) then mkBlock "minecraft:oak_log"
                    else if decide (p = (0, 1, 0)) then mkBlock "minecraft:dirt"
                    else mkBlock "minecraft:air")
          [] example_heightmaps [] (fun _ => 0) 0.

(** [m] changes the editor only through calls at positions in [P]: in any
    store, and whether it returns or raises, the log grows by some calls
    [cs] at positions in [P] and the world is the old one with [cs]
    applied. *)
Definition effects (P : Pos -> Prop) {A} (m : M A) : Prop :=
  forall st, exists cs,
    placed (exec m st) = (placed st ++ cs)%list /\
    world (exec m st) = foldl (fun w c => set_block w c.1 c.2) (world st) cs /\
    Forall (fun c => P c.1) cs.

(** [m] returns in every store. *)
Definition never_raises {A} (m : M A) : Prop :=
  forall st, exists a, result m st = Ok a.

(** A store whose MOTION_BLOCKING_NO_LEAVES array is one column short of
    the example rectangle. *)
Definition narrow_state : State :=
  mkState (fun _ => air) []
    {[ "MOTION_BLOCKING_NO_LEAVES" := flat_array 2 1 3;
       "WORLD_SURFACE" := flat_array 2 2 5 ]} [] (fun _ => 0) 0.

(** The effect on the store of the calls [cs] and of the printed lines
    [out]. *)
Definition apply_effects (cs : list (Pos * Block)) (out : list (list PyVal))
    (st : State) : State :=
  mkState (foldl (fun w c => set_block w c.1 c.2) (world st) cs)
          (placed st ++ cs) (heightmaps st) (stdout st ++ out)
          (rng st) (rng_pos st).

(** The lines [flatten_area] prints in its loops for the world [w]: the id
    of the block of each column at the flattened height. *)
Definition flatten_lines (w : Pos -> Block) (buildRect : Rect.t)
    (build_area : Box.t) : list (list PyVal) :=
  x ← range (Rect._offset buildRect).1
            ((Rect._offset buildRect).1 + (Rect.size buildRect).1);
  z ← range (Rect._offset buildRect).2
            ((Rect._offset buildRect).2 + (Rect.size buildRect).2);
  [[PStr (id (w (x, (Box.begin build_area).1.2 - 1, z)))]].

(** The leaves placed on the sites [sites] when the generator is at draw
    number [pos]: one draw per site, a leaf where the draw is below
    [leaf_density]. *)
Fixpoint sprinkle (draws : nat -> Z) (pos : nat)
    (sites : list (Pos * Block)) : list (Pos * Block) :=
  match sites with
  | [] => []
  | c :: sites' =>
      (if bool_decide (draws pos < leaf_density) then [c] else [])
      ++ sprinkle draws (S pos) sites'
  end.

(** [m] returns after one draw per site of [sites], having placed the
    leaves these draws select. *)
Definition draws_for (m : M unit) (sites : list (Pos * Block)) : Prop :=
  forall st,
    m st = (mkState
              (foldl (fun w c => set_block w c.1 c.2) (world st)
                     (sprinkle (rng st) (rng_pos st) sites))
              (placed st ++ sprinkle (rng st) (rng_pos st) sites)
              (heightmaps st) (stdout st) (rng st)
              (rng_pos st + length sites)%nat,
            Ok tt).

(** * Proofs *)

Local Open Scope list_scope.

(** ** Reasoning about runs *)

Lemma apply_calls_nil st : apply_calls [] st = st.
Proof. destruct st; unfold apply_calls; simpl. by rewrite app_nil_r. Qed.

Lemma apply_calls_app cs1 cs2 st :
  apply_calls cs2 (apply_calls cs1 st) = apply_calls (cs1 ++ cs2) st.
Proof.
  unfold apply_calls; simpl. by rewrite foldl_app, app_assoc.
Qed.

Lemma bind_ok {A B} (m : M A) (k : A -> M B) st st' a :
  m st = (st', Ok a) -> (m ≫= k) st = k a st'.
Proof. intros H. unfold mbind, M_bind. by rewrite H. Qed.

Lemma bind_raise {A B} (m : M A) (k : A -> M B) st st' e :
  m st = (st', Raise e) -> (m ≫= k) st = (st', Raise e).
Proof. intros H. unfold mbind, M_bind. by rewrite H. Qed.

Lemma emits_ret : emits (mret tt) [].
Proof. intros st. by rewrite apply_calls_nil. Qed.

Lemma emits_placeBlock p b : emits (placeBlock p b) [(p, b)].
Proof. by intros st. Qed.

Lemma emits_bind m1 m2 cs1 cs2 :
  emits m1 cs1 -> emits m2 cs2 -> emits (m1 ;; m2) (cs1 ++ cs2).
Proof.
  intros H1 H2 st. rewrite (bind_ok _ _ _ _ _ (H1 st)), H2.
  by rewrite apply_calls_app.
Qed.

Lemma emits_for {A} (l : list A) (body : A -> M unit) f :
  (forall x, x ∈ l -> emits (body x) (f x)) ->
  emits (for_ l body) (l ≫= f).
Proof.
  induction l as [|x l IH]; intros Hb; simpl.
  - apply emits_ret.
  - apply emits_bind.
    + apply Hb. by left.
    + apply IH. intros y Hy. apply Hb. by right.
Qed.

Lemma emits_if (c : bool) m1 m2 cs1 cs2 :
  emits m1 cs1 -> emits m2 cs2 ->
  emits (if c then m1 else m2) (if c then cs1 else cs2).
Proof. by destruct c. Qed.

Lemma emits_calls_of m cs st : emits m cs -> calls_of m st = cs.
Proof.
  intros H. unfold calls_of, exec. rewrite H. simpl.
  by rewrite drop_app_length.
Qed.

(** Membership in the ranges. *)
Lemma elem_of_range a b k : k ∈ range a b <-> a <= k < b.
Proof. unfold range. rewrite elem_of_seqZ. lia. Qed.

Lemma NoDup_range a b : NoDup (range a b).
Proof. apply NoDup_seqZ. Qed.

Lemma elem_of_range_step a b step k :
  0 < step ->
  k ∈ range_step a b step <->
  a <= k < b /\ (k - a) `mod` step = 0.
Proof.
  intros Hs. unfold range_step. rewrite list_elem_of_fmap. split.
  - intros (i & -> & Hi). apply elem_of_seq in Hi.
    assert (Z.of_nat i < (b - a + step - 1) `div` step) as Hlt by lia.
    assert (Z.of_nat i * step < b - a).
    { destruct (decide (Z.of_nat i * step < b - a)) as [|Hn]; [done|].
      exfalso. apply Z.nlt_ge in Hn.
      assert ((b - a + step - 1) `div` step < Z.of_nat i + 1); [|lia].
      apply Z.div_lt_upper_bound; nia. }
    split; [lia|].
    replace (a + Z.of_nat i * step - a) with (Z.of_nat i * step) by lia.
    by apply Z.mod_mul; lia.
  - intros [Hk Hm]. apply Z.mod_divide in Hm as [q Hq]; [|lia].
    assert (0 <= q) by nia.
    exists (Z.to_nat q). split; [lia|].
    apply elem_of_seq. split; [lia|]. simpl.
    assert (q + 1 <= (b - a + step - 1) `div` step); [|lia].
    apply Z.div_le_lower_bound; nia.
Qed.

Lemma NoDup_range_step a b step : 0 < step -> NoDup (range_step a b step).
Proof.
  intros Hs. unfold range_step. apply NoDup_fmap_2; [|apply NoDup_seq].
  intros i j Hij. nia.
Qed.

Example tree_house_main_first_call :
  head (placed (exec (tree_house_main (Box.mk (0, 0, 0) (64, 200, 64)))
                     (blank_state ∅ 0)))
  = Some ((-3, 10, 0), oak_log).
Proof. vm_compute. reflexivity. Qed.

Section treehouse_emits.
Variables (starting_pos : Pos).
Variables (tree_height platform_height platform_radius house_height : Z).
Variable (block_type : Block).
Local Abbreviation platform_calls := (platform_calls starting_pos platform_height platform_radius).
Local Abbreviation wall_calls := (wall_calls starting_pos platform_height platform_radius house_height block_type).
Local Abbreviation trunk_calls := (trunk_calls starting_pos tree_height).
Local Abbreviation window_calls := (window_calls starting_pos platform_height platform_radius house_height).
Local Abbreviation roof_calls := (roof_calls starting_pos platform_height platform_radius house_height).
Local Abbreviation ladder_calls := (ladder_calls starting_pos platform_height).
Local Abbreviation door_calls := (door_calls starting_pos platform_height platform_radius).
Local Abbreviation structure_calls := (structure_calls starting_pos tree_height platform_height platform_radius house_height block_type).

Lemma platform_pass_emits :
  emits (platform_pass starting_pos platform_height platform_radius)
        platform_calls.
Proof.
  apply emits_for; intros x _. apply emits_for; intros z _.
  apply emits_if; [apply emits_placeBlock | apply emits_ret].
Qed.

Lemma wall_pass_emits :
  emits (wall_pass starting_pos platform_height platform_radius
                   house_height block_type)
        wall_calls.
Proof.
  apply emits_for; intros y _. apply emits_for; intros x _.
  apply emits_for; intros z _.
  destruct (_ || _); apply emits_placeBlock.
Qed.

Lemma trunk_pass_emits :
  emits (trunk_pass starting_pos tree_height) trunk_calls.
Proof. apply emits_for; intros y _. apply emits_placeBlock. Qed.

Lemma window_pass_emits :
  emits (window_pass starting_pos platform_height platform_radius
                     house_height)
        window_calls.
Proof.
  apply emits_for; intros y _. apply emits_for; intros x _.
  apply emits_for; intros z _.
  apply emits_if; [apply emits_placeBlock | apply emits_ret].
Qed.

Lemma roof_pass_emits :
  emits (roof_pass starting_pos platform_height platform_radius
                   house_height)
        roof_calls.
Proof.
  apply emits_for; intros x _. apply emits_for; intros z _.
  apply emits_placeBlock.
Qed.

Lemma ladder_pass_emits :
  emits (ladder_pass starting_pos platform_height) ladder_calls.
Proof. apply emits_for; intros y _. apply emits_placeBlock. Qed.

Lemma door_pass_emits :
  emits (door_pass starting_pos platform_height platform_radius) door_calls.
Proof. apply emits_placeBlock. Qed.

Lemma structure_passes_emits :
  emits (structure_passes starting_pos tree_height platform_height
                          platform_radius house_height block_type)
        structure_calls.
Proof.
  unfold structure_passes, structure_calls.
  repeat apply emits_bind;
    auto using platform_pass_emits, wall_pass_emits, trunk_pass_emits,
      window_pass_emits, roof_pass_emits, ladder_pass_emits,
      door_pass_emits.
Qed.
End treehouse_emits.

(** ** Lists of calls *)

Lemma vadd_inj p q1 q2 : vadd p q1 = vadd p q2 -> q1 = q2.
Proof.
  destruct p as [[px py] pz], q1 as [[x1 y1] z1], q2 as [[x2 y2] z2].
  simpl. intros [= Hx Hy Hz]. repeat f_equal; lia.
Qed.

Lemma in2_spec x a b : in2 x a b = true <-> x = a \/ x = b.
Proof.
  unfold in2. rewrite orb_true_iff, !bool_decide_eq_true. tauto.
Qed.

(** Unfolds a membership in a list written with [≫=], [if] and singletons. *)
Ltac elem_calls H :=
  repeat match type of H with
    | _ ∈ _ ≫= _ => apply list_elem_of_bind in H as (? & H & ?)
    | _ ∈ (if ?c then _ else _) => destruct c eqn:?
    | _ ∈ [_] => apply list_elem_of_singleton in H
    | _ ∈ [] => apply elem_of_nil in H; destruct H
    end.

Lemma NoDup_bind_fst {A} (l : list A) (f : A -> list (Pos * Block)) :
  (forall x1 x2 p b1 b2, x1 ∈ l -> x2 ∈ l ->
     (p, b1) ∈ f x1 -> (p, b2) ∈ f x2 -> x1 = x2) ->
  (forall x, x ∈ l -> NoDup (f x).*1) ->
  NoDup l -> NoDup (l ≫= f).*1.
Proof.
  intros Hinj Hf. induction 1 as [|x l Hx Hl IH]; csimpl; [constructor|].
  rewrite fmap_app. apply NoDup_app. split_and!.
  - apply Hf. by left.
  - intros p Hp1 Hp2.
    apply list_elem_of_fmap in Hp1 as ([p1 b1] & -> & Hp1).
    apply list_elem_of_fmap in Hp2 as ([p2 b2] & Heq & Hp2). simpl in Heq.
    subst p2. apply list_elem_of_bind in Hp2 as (x' & Hp2 & Hx').
    apply Hx. rewrite (Hinj x x' p1 b1 b2); auto; [by left | by right].
  - apply IH.
    + intros x1 x2 p b1 b2 H1 H2. apply Hinj; by right.
    + intros y Hy. apply Hf. by right.
Qed.

Lemma NoDup_fst_if (c : bool) (e : Pos * Block) :
  NoDup (if c then [e] else []).*1.
Proof. destruct c; csimpl; [apply NoDup_singleton | constructor]. Qed.

(** ** The platform and the walls *)

Lemma elem_of_platform_calls sp ph r p b :
  (p, b) ∈ platform_calls sp ph r <->
  b = oak_log /\
  exists x z, - r <= x <= r /\ - r <= z <= r /\ x * x + z * z <= r * r /\
              p = vadd sp (x, ph, z).
Proof.
  unfold platform_calls. split.
  - intros H. apply list_elem_of_bind in H as (x & H & Hx).
    apply list_elem_of_bind in H as (z & H & Hz).
    destruct (bool_decide _) eqn:E; [|by apply elem_of_nil in H].
    apply list_elem_of_singleton in H. injection H as -> ->.
    apply bool_decide_eq_true in E. apply elem_of_range in Hx, Hz.
    split; [done|]. exists x, z. split_and!; (lia || done).
  - intros (-> & x & z & Hx & Hz & Hd & ->).
    apply list_elem_of_bind. exists x. split; [|apply elem_of_range; lia].
    apply list_elem_of_bind. exists z. split; [|apply elem_of_range; lia].
    rewrite bool_decide_eq_true_2 by done. by apply list_elem_of_singleton.
Qed.

Lemma elem_of_wall_calls sp ph r hh bt p b :
  (p, b) ∈ wall_calls sp ph r hh bt <->
  exists y x z, 0 <= y < hh /\ - r <= x <= r /\ - r <= z <= r /\
    p = vadd sp (x, ph + 1 + y, z) /\
    b = if in2 x (- r) r || in2 z (- r) r then bt else air.
Proof.
  unfold wall_calls. split.
  - intros H. apply list_elem_of_bind in H as (y & H & Hy).
    apply list_elem_of_bind in H as (x & H & Hx).
    apply list_elem_of_bind in H as (z & H & Hz).
    apply list_elem_of_singleton in H. injection H as -> ->.
    apply elem_of_range in Hy, Hx, Hz.
    exists y, x, z. split_and!; (lia || done).
  - intros (y & x & z & Hy & Hx & Hz & -> & ->).
    apply list_elem_of_bind. exists y. split; [|apply elem_of_range; lia].
    apply list_elem_of_bind. exists x. split; [|apply elem_of_range; lia].
    apply list_elem_of_bind. exists z. split; [|apply elem_of_range; lia].
    by apply list_elem_of_singleton.
Qed.

(** C3: the platform pass succeeds and places an [oak_log] at
    [starting_pos + (x, platform_height, z)] for exactly the integer pairs
    [(x, z)] of the square [[-r, r]^2] with [x*x + z*z <= r*r], each once,
    and places nothing else. *)
Theorem platform_pass_disc starting_pos platform_height platform_radius st :
  let run := platform_pass starting_pos platform_height platform_radius in
  result run st = Ok tt /\
  NoDup (calls_of run st) /\
  forall p b,
    (p, b) ∈ calls_of run st <->
    b = oak_log /\
    exists x z,
      - platform_radius <= x <= platform_radius /\
      - platform_radius <= z <= platform_radius /\
      x * x + z * z <= platform_radius * platform_radius /\
      p = vadd starting_pos (x, platform_height, z).
Proof.
  intros run. subst run.
  pose proof (platform_pass_emits starting_pos platform_height
                platform_radius) as He.
  rewrite (emits_calls_of _ _ st He). split_and!.
  - unfold result. by rewrite He.
  - apply (NoDup_fmap_1 fst). unfold platform_calls.
    apply NoDup_bind_fst; [| |apply NoDup_range].
    + intros x1 x2 p b1 b2 _ _ H1 H2. elem_calls H1. elem_calls H2.
      injection H1 as -> _. injection H2 as H2 _.
      apply vadd_inj in H2. congruence.
    + intros x _. apply NoDup_bind_fst; [| |apply NoDup_range].
      * intros z1 z2 p b1 b2 _ _ H1 H2. elem_calls H1. elem_calls H2.
        injection H1 as -> _. injection H2 as H2 _.
        apply vadd_inj in H2. congruence.
      * intros z _. apply NoDup_fst_if.
  - intros p b. apply elem_of_platform_calls.
Qed.

(** C4: for every [y] with [0 <= y < house_height] and every [(x, z)] of
    the square [[-r, r]^2], the wall pass places at
    [starting_pos + (x, platform_height + 1 + y, z)] the block [block_type]
    when [x] or [z] equals [-r] or [r], and air otherwise; it places nothing
    else. *)
Theorem wall_pass_hollow_shell starting_pos platform_height platform_radius
    house_height block_type st :
  let run := wall_pass starting_pos platform_height platform_radius
               house_height block_type in
  let on_perimeter x z :=
    x = - platform_radius \/ x = platform_radius \/
    z = - platform_radius \/ z = platform_radius in
  result run st = Ok tt /\
  (forall y x z,
     0 <= y < house_height ->
     - platform_radius <= x <= platform_radius ->
     - platform_radius <= z <= platform_radius ->
     let p := vadd starting_pos (x, platform_height + 1 + y, z) in
     (on_perimeter x z -> (p, block_type) ∈ calls_of run st) /\
     (~ on_perimeter x z -> (p, air) ∈ calls_of run st) /\
     (forall b, (p, b) ∈ calls_of run st ->
        b = if decide (on_perimeter x z) then block_type else air)) /\
  (forall p b,
     (p, b) ∈ calls_of run st ->
     exists y x z,
       0 <= y < house_height /\
       - platform_radius <= x <= platform_radius /\
       - platform_radius <= z <= platform_radius /\
       p = vadd starting_pos (x, platform_height + 1 + y, z)).
Proof.
  intros run on_perimeter. subst run.
  pose proof (wall_pass_emits starting_pos platform_height platform_radius
                house_height block_type) as He.
  rewrite (emits_calls_of _ _ st He).
  assert (forall x z, in2 x (- platform_radius) platform_radius
                      || in2 z (- platform_radius) platform_radius = true
                      <-> on_perimeter x z) as Hper.
  { intros x z. rewrite orb_true_iff, !in2_spec. unfold on_perimeter. tauto. }
  split_and!.
  - unfold result. by rewrite He.
  - intros y x z Hy Hx Hz p. split_and!.
    + intros Hp. apply elem_of_wall_calls. exists y, x, z.
      apply Hper in Hp. by rewrite Hp.
    + intros Hp. apply elem_of_wall_calls. exists y, x, z.
      destruct (_ || _) eqn:E; [|done]. by apply Hper in E.
    + intros b (y' & x' & z' & _ & _ & _ & Hpos & ->)%elem_of_wall_calls.
      apply vadd_inj in Hpos. injection Hpos as -> _ ->.
      destruct (decide (on_perimeter x' z')) as [Hp|Hp].
      * apply Hper in Hp. by rewrite Hp.
      * destruct (_ || _) eqn:E; [|done]. by apply Hper in E.
  - intros p b (y & x & z & ? & ? & ? & ? & _)%elem_of_wall_calls.
    eauto 10.
Qed.

(** ** The descent loop of [clear_area] *)

Lemma descent_false x z start block st :
  descent_guard block start = false ->
  descent x z start block st = (st, Ok (start, block)).
Proof.
  funelim (descent x z start block st); intros H'; [congruence|reflexivity].
Qed.

Lemma descent_true x z start block st :
  descent_guard block start = true ->
  descent x z start block st
  = descent x z (start - 1) (world st (x, start - 1 - 1, z)) st.
Proof.
  funelim (descent x z start block st); intros H'; [reflexivity|congruence].
Qed.

Lemma descent_guard_pos block start :
  descent_guard block start = true -> start > 0.
Proof.
  unfold descent_guard. intros [_ H]%andb_prop.
  by apply bool_decide_eq_true in H.
Qed.

Lemma descent_iter_chain_bound w x z n c c' :
  nsteps (descent_iter w x z) n c c' ->
  c'.1 = c.1 - Z.of_nat n /\ (n <= Z.to_nat c.1)%nat.
Proof.
  induction 1 as [c|n c1 c2 c3 Hstep _ [IH1 IH2]]; [simpl; lia|].
  destruct Hstep as [start block Hg]. apply descent_guard_pos in Hg.
  simpl in *. lia.
Qed.

(** The loop runs to its exit: the iterations it makes and its result. *)
Lemma descent_run x z start block st :
  exists n c',
    nsteps (descent_iter (world st) x z) n (start, block) c' /\
    descent_guard c'.2 c'.1 = false /\
    descent x z start block st = (st, Ok c').
Proof.
  remember (Z.to_nat start) as k eqn:Hk.
  revert start block Hk. induction k as [k IH] using lt_wf_ind.
  intros start block ->.
  destruct (descent_guard block start) eqn:Hg.
  - pose proof (descent_guard_pos _ _ Hg) as Hpos.
    destruct (IH (Z.to_nat (start - 1)) ltac:(lia) (start - 1)
                 (world st (x, start - 1 - 1, z)) eq_refl)
      as (n & c' & Hn & Hexit & Hrun).
    exists (S n), c'. split_and!; [|done|].
    + eapply nsteps_l; [|done]. by constructor.
    + by rewrite descent_true.
  - exists 0%nat, (start, block). split_and!; [constructor|done|].
    by apply descent_false.
Qed.

(** C8: the descent loop terminates whatever the column and the blocks:
    every iteration requires [start > 0] and decrements [start] by one, no
    run of iterations from [start] is longer than [start], and the loop
    returns after at most that many iterations, with its guard false. *)
Theorem descent_terminates x z start block st :
  (forall c c', descent_iter (world st) x z c c' ->
     c.1 > 0 /\ c'.1 = c.1 - 1) /\
  (forall n c', nsteps (descent_iter (world st) x z) n (start, block) c' ->
     (n <= Z.to_nat start)%nat) /\
  (exists n c',
     (n <= Z.to_nat start)%nat /\
     nsteps (descent_iter (world st) x z) n (start, block) c' /\
     descent_guard c'.2 c'.1 = false /\
     descent x z start block st = (st, Ok c')).
Proof.
  split_and!.
  - intros c c' [s b Hg]. apply descent_guard_pos in Hg. simpl. lia.
  - intros n c' Hn. by apply descent_iter_chain_bound in Hn as [_ Hn].
  - destruct (descent_run x z start block st) as (n & c' & Hn & Hg & Hrun).
    exists n, c'. split_and!; try done.
    by apply descent_iter_chain_bound in Hn as [_ Hn].
Qed.

(** ** The heightmaps are only read *)

Lemma keeps_ret {A} (a : A) : keeps_heightmaps (mret a : M A).
Proof. by intros st. Qed.

Lemma keeps_bind {A B} (m : M A) (k : A -> M B) :
  keeps_heightmaps m -> (forall a, keeps_heightmaps (k a)) ->
  keeps_heightmaps (m ≫= k).
Proof.
  intros Hm Hk st. specialize (Hm st). unfold exec, mbind, M_bind in *.
  destruct (m st) as [st' [a|e]]; simpl in *; [|done].
  rewrite <- Hm. apply Hk.
Qed.

Lemma keeps_for {A} (l : list A) (body : A -> M unit) :
  (forall x, keeps_heightmaps (body x)) -> keeps_heightmaps (for_ l body).
Proof.
  intros Hb. induction l as [|x l IH]; simpl.
  - apply keeps_ret.
  - apply keeps_bind; auto.
Qed.

Lemma keeps_getBlock p : keeps_heightmaps (getBlock p).
Proof. by intros st. Qed.

Lemma keeps_placeBlock p b : keeps_heightmaps (placeBlock p b).
Proof. by intros st. Qed.

Lemma keeps_print args : keeps_heightmaps (print args).
Proof. by intros st. Qed.

Lemma keeps_random_lt d : keeps_heightmaps (random_lt d).
Proof. by intros st. Qed.

Lemma keeps_heightmap_get key : keeps_heightmaps (heightmap_get key).
Proof. intros st. unfold exec, heightmap_get. by destruct (_ !! _). Qed.

Lemma keeps_array_get a i j : keeps_heightmaps (array_get a i j).
Proof.
  intros st. unfold exec, array_get.
  by destruct (axis_index (fst (shape a)) i), (axis_index (snd (shape a)) j).
Qed.

Lemma keeps_descent x z start block :
  keeps_heightmaps (descent x z start block).
Proof.
  intros st. unfold exec.
  destruct (descent_run x z start block st) as (n & c' & _ & _ & ->). done.
Qed.

Lemma keeps_if {A} (c : bool) (m1 m2 : M A) :
  keeps_heightmaps m1 -> keeps_heightmaps m2 ->
  keeps_heightmaps (if c then m1 else m2).
Proof. by destruct c. Qed.

Create HintDb keeps discriminated.
#[local] Hint Resolve keeps_ret keeps_getBlock keeps_placeBlock keeps_print
  keeps_random_lt keeps_heightmap_get keeps_array_get keeps_descent : keeps.

Ltac keeps_tac :=
  repeat first
    [ progress eauto with keeps
    | apply keeps_bind; [|intros ?]
    | apply keeps_for; intros ?
    | apply keeps_if
    | match goal with |- keeps_heightmaps (let '(_, _) := ?p in _) =>
        destruct p end ].

(** C7: no run of [clear_area], [flatten_area] or [build_treehouse] writes
    to a heightmap: whatever the arguments and the store, and whether the
    run returns or raises, the heightmap arrays are the same afterwards. *)
Theorem heightmaps_read_only st :
  (forall heightmap buildRect build_area,
     heightmaps (exec (clear_area heightmap buildRect build_area) st)
     = heightmaps st) /\
  (forall heightmap buildRect build_area,
     heightmaps (exec (flatten_area heightmap buildRect build_area) st)
     = heightmaps st) /\
  (forall starting_pos tree_height platform_height platform_radius
          house_height block_type,
     heightmaps (exec (build_treehouse starting_pos tree_height
                         platform_height platform_radius house_height
                         block_type) st)
     = heightmaps st).
Proof.
  split_and!; intros.
  - revert st. change (keeps_heightmaps
                         (clear_area heightmap buildRect build_area)).
    unfold clear_area. keeps_tac.
  - revert st. change (keeps_heightmaps
                         (flatten_area heightmap buildRect build_area)).
    unfold flatten_area. keeps_tac.
  - revert st.
    change (keeps_heightmaps
              (build_treehouse starting_pos tree_height platform_height
                 platform_radius house_height block_type)).
    unfold build_treehouse, structure_passes, platform_pass, wall_pass,
      trunk_pass, window_pass, roof_pass, ladder_pass, door_pass, leaf_pass.
    keeps_tac.
Qed.

(** ** Calls issued by code that also reads and prints *)

Lemma issues_ret : issues (mret tt) [].
Proof. intros st. split_and!; try done. simpl. by rewrite app_nil_r. Qed.

Lemma issues_placeBlock p b : issues (placeBlock p b) [(p, b)].
Proof. by intros st. Qed.

Lemma issues_print args : issues (print args) [].
Proof. intros st. split_and!; try done. simpl. by rewrite app_nil_r. Qed.

Lemma issues_bind m1 m2 cs1 cs2 :
  issues m1 cs1 -> issues m2 cs2 -> issues (m1 ;; m2) (cs1 ++ cs2).
Proof.
  intros H1 H2 st. destruct (H1 st) as (Hr & Hp & Hw).
  unfold result, exec, mbind, M_bind in *.
  destruct (m1 st) as [st1 r1]; simpl in *. subst r1.
  destruct (H2 st1) as (Hr2 & Hp2 & Hw2).
  unfold result, exec in *.
  rewrite Hr2, Hp2, Hw2, Hp, Hw, foldl_app, app_assoc. done.
Qed.

Lemma issues_print_l args m cs : issues m cs -> issues (print args ;; m) cs.
Proof. intros H. apply (issues_bind _ _ [] cs (issues_print args) H). Qed.

Lemma issues_print_r args m cs : issues m cs -> issues (m ;; print args) cs.
Proof.
  intros H. rewrite <- (app_nil_r cs).
  apply issues_bind; [done|apply issues_print].
Qed.

Lemma issues_getBlock p (k : Block -> M unit) cs :
  (forall b, issues (k b) cs) -> issues (getBlock p ≫= k) cs.
Proof. intros Hk st. apply (Hk (world st p) st). Qed.

Lemma issues_for {A} (l : list A) (body : A -> M unit) f :
  (forall x, x ∈ l -> issues (body x) (f x)) ->
  issues (for_ l body) (l ≫= f).
Proof.
  induction l as [|x l IH]; intros Hb; simpl.
  - apply issues_ret.
  - apply issues_bind.
    + apply Hb. by left.
    + apply IH. intros y Hy. apply Hb. by right.
Qed.

Lemma issues_calls_of m cs st : issues m cs -> calls_of m st = cs.
Proof.
  intros H. destruct (H st) as (_ & Hp & _). unfold calls_of.
  by rewrite Hp, drop_app_length.
Qed.

Lemma emits_issues m cs : emits m cs -> issues m cs.
Proof. intros H st. unfold result, exec. by rewrite H. Qed.

(** The block a sequence of calls leaves at a position. *)
Lemma foldl_set_block_notin cs w p :
  p ∉ cs.*1 -> foldl (fun w c => set_block w c.1 c.2) w cs p = w p.
Proof.
  revert w. induction cs as [|[q c] cs IH]; intros w Hp; [done|].
  rewrite fmap_cons, not_elem_of_cons in Hp. destruct Hp as [Hne Hp].
  simpl. rewrite IH by done. unfold set_block. by rewrite decide_False.
Qed.

Lemma foldl_set_block_in cs w p b :
  (forall c, (p, c) ∈ cs -> c = b) -> p ∈ cs.*1 ->
  foldl (fun w c => set_block w c.1 c.2) w cs p = b.
Proof.
  revert w. induction cs as [|[q c] cs IH]; intros w Hall Hp.
  { by apply elem_of_nil in Hp. }
  simpl. destruct (decide (p ∈ cs.*1)) as [Hd|Hd].
  - apply IH; [|done]. intros c' Hc'. apply Hall. by right.
  - rewrite foldl_set_block_notin by done.
    rewrite fmap_cons in Hp. apply elem_of_cons in Hp as [->|Hp]; [|done].
    unfold set_block. simpl. rewrite decide_True by done.
    apply Hall. by left.
Qed.

(** ** [flatten_area] *)

Lemma flatten_area_issues heightmap buildRect build_area :
  issues (flatten_area heightmap buildRect build_area)
         (flatten_calls buildRect build_area).
Proof.
  unfold flatten_area, flatten_calls.
  do 2 apply issues_print_l. apply issues_print_r.
  apply issues_for; intros x _. apply issues_for; intros z _.
  apply issues_getBlock; intros b.
  apply issues_print_l, issues_placeBlock.
Qed.

Lemma elem_of_flatten_calls buildRect build_area p b :
  (p, b) ∈ flatten_calls buildRect build_area <->
  b = grass_block /\
  exists x z, in_rect buildRect x z /\
              p = (x, (Box.begin build_area).1.2 - 1, z).
Proof.
  unfold flatten_calls, in_rect. split.
  - intros H. elem_calls H. injection H as -> ->.
    repeat match goal with H : _ ∈ range _ _ |- _ =>
      apply elem_of_range in H end.
    split; [done|]. eauto 10.
  - intros (-> & x & z & [Hx Hz] & ->).
    apply list_elem_of_bind. exists x. split; [|by apply elem_of_range].
    apply list_elem_of_bind. exists z. split; [|by apply elem_of_range].
    by apply list_elem_of_singleton.
Qed.

Lemma NoDup_flatten_calls buildRect build_area :
  NoDup (flatten_calls buildRect build_area).*1.
Proof.
  unfold flatten_calls. apply NoDup_bind_fst; [| |apply NoDup_range].
  - intros x1 x2 p b1 b2 _ _ H1 H2. elem_calls H1. elem_calls H2. congruence.
  - intros x _. apply NoDup_bind_fst; [| |apply NoDup_range].
    + intros z1 z2 p b1 b2 _ _ H1 H2. elem_calls H1. elem_calls H2.
      congruence.
    + intros z _. csimpl. apply NoDup_singleton.
Qed.

(** C9: [flatten_area] returns, and whatever blocks it reads it places a
    [grass_block] at [(x, build_area.begin[1] - 1, z)] for every column
    [(x, z)] of the rectangle, once per column, and places nothing else;
    the sequence of calls is the same in any two stores. *)
Theorem flatten_area_unconditional heightmap buildRect build_area st :
  let run := flatten_area heightmap buildRect build_area in
  let min := (Box.begin build_area).1.2 - 1 in
  result run st = Ok tt /\
  (forall st', calls_of run st' = calls_of run st) /\
  NoDup (calls_of run st).*1 /\
  (forall x z, in_rect buildRect x z ->
     ((x, min, z), grass_block) ∈ calls_of run st /\
     world (exec run st) (x, min, z) = grass_block) /\
  (forall p b, (p, b) ∈ calls_of run st ->
     b = grass_block /\
     exists x z, in_rect buildRect x z /\ p = (x, min, z)).
Proof.
  intros run min. subst run min.
  pose proof (flatten_area_issues heightmap buildRect build_area) as Hi.
  rewrite (issues_calls_of _ _ st Hi).
  destruct (Hi st) as (Hr & Hp & Hw).
  split_and!.
  - done.
  - intros st'. by rewrite (issues_calls_of _ _ st' Hi).
  - apply NoDup_flatten_calls.
  - intros x z Hxz.
    assert (((x, (Box.begin build_area).1.2 - 1, z), grass_block)
            ∈ flatten_calls buildRect build_area) as Hin.
    { apply elem_of_flatten_calls. eauto. }
    split; [done|]. rewrite Hw. apply foldl_set_block_in.
    + by intros c [-> _]%elem_of_flatten_calls.
    + apply list_elem_of_fmap. by eexists (_, _).
  - intros p b. apply elem_of_flatten_calls.
Qed.

(** ** The leaf scatter *)

Lemma scatters_ret : scatters (mret tt) [].
Proof. intros st. exists []. split_and!; try done. simpl. by rewrite app_nil_r. Qed.

Lemma scatters_placeBlock p b : scatters (placeBlock p b) [(p, b)].
Proof. intros st. by exists [(p, b)]. Qed.

Lemma scatters_weaken m s1 s2 :
  s1 `sublist_of` s2 -> scatters m s1 -> scatters m s2.
Proof.
  intros Hs Hm st. destruct (Hm st) as (cs & ? & ? & ?).
  exists cs. split_and!; try done. by etrans.
Qed.

Lemma scatters_bind m1 m2 s1 s2 :
  scatters m1 s1 -> scatters m2 s2 -> scatters (m1 ;; m2) (s1 ++ s2).
Proof.
  intros H1 H2 st. destruct (H1 st) as (cs1 & Hs1 & Hr1 & Hp1).
  unfold result, exec, mbind, M_bind in *.
  destruct (m1 st) as [st1 r1]; simpl in *. subst r1.
  destruct (H2 st1) as (cs2 & Hs2 & Hr2 & Hp2).
  exists (cs1 ++ cs2). unfold result, exec in *.
  rewrite Hr2, Hp2, Hp1, app_assoc. split_and!; try done.
  by apply sublist_app.
Qed.

Lemma scatters_for {A} (l : list A) (body : A -> M unit) f :
  (forall x, x ∈ l -> scatters (body x) (f x)) ->
  scatters (for_ l body) (l ≫= f).
Proof.
  induction l as [|x l IH]; intros Hb; simpl.
  - apply scatters_ret.
  - apply scatters_bind.
    + apply Hb. by left.
    + apply IH. intros y Hy. apply Hb. by right.
Qed.

Lemma scatters_random d (k : bool -> M unit) s :
  (forall hit, scatters (k hit) s) -> scatters (random_lt d ≫= k) s.
Proof.
  intros Hk st.
  destruct (Hk (bool_decide (rng st (rng_pos st) < d))
               (mkState (world st) (placed st) (heightmaps st) (stdout st)
                        (rng st) (S (rng_pos st))))
    as (cs & Hs & Hr & Hp).
  exists cs. split_and!; done.
Qed.

Lemma leaf_pass_scatters sp ph r hh :
  scatters (leaf_pass sp ph r hh) (leaf_sites sp ph r hh).
Proof.
  apply scatters_for; intros y _. apply scatters_for; intros x _.
  apply scatters_for; intros z _.
  destruct (_ || _); [|apply scatters_ret].
  apply scatters_random; intros [|]; [apply scatters_placeBlock|].
  eapply scatters_weaken; [|apply scatters_ret]. apply sublist_nil_l.
Qed.

(** The calls of a run of [build_treehouse]: those of the structure, then
    leaves on some of the leaf sites. *)
Lemma build_treehouse_calls sp th ph r hh bt st :
  exists leaves,
    leaves `sublist_of` leaf_sites sp ph r hh /\
    result (build_treehouse sp th ph r hh bt) st = Ok tt /\
    calls_of (build_treehouse sp th ph r hh bt) st
    = structure_calls sp th ph r hh bt ++ leaves.
Proof.
  pose proof (structure_passes_emits sp th ph r hh bt st) as Hs.
  destruct (leaf_pass_scatters sp ph r hh
              (apply_calls (structure_calls sp th ph r hh bt) st))
    as (cs & Hsub & Hr & Hp).
  exists cs. unfold build_treehouse, calls_of, result, exec in *.
  rewrite (bind_ok _ _ _ _ _ Hs). rewrite Hr, Hp. simpl.
  split_and!; try done. by rewrite <- app_assoc, drop_app_length.
Qed.

(** C10: the calls of the platform, wall, trunk, window, roof, ladder and
    door passes are the same sequence in any two stores (whatever their
    worlds and random draws); a run of [build_treehouse] issues that
    sequence followed by leaves on some of the leaf sites; and two runs with
    equal arguments that differ only in the random draws can differ in the
    leaves they place. *)
Theorem structure_passes_deterministic starting_pos tree_height
    platform_height platform_radius house_height block_type st1 st2 :
  let structure := structure_passes starting_pos tree_height platform_height
                     platform_radius house_height block_type in
  let build := build_treehouse starting_pos tree_height platform_height
                 platform_radius house_height block_type in
  calls_of structure st1 = calls_of structure st2 /\
  (exists leaves1 leaves2,
     calls_of build st1 = calls_of structure st1 ++ leaves1 /\
     calls_of build st2 = calls_of structure st2 ++ leaves2 /\
     leaves1 `sublist_of`
       leaf_sites starting_pos platform_height platform_radius house_height /\
     leaves2 `sublist_of`
       leaf_sites starting_pos platform_height platform_radius house_height) /\
  (exists area (k1 k2 : Z),
     0 <= k1 < 2 ^ 53 /\ 0 <= k2 < 2 ^ 53 /\
     calls_of (tree_house_main area) (blank_state ∅ k1)
     <> calls_of (tree_house_main area) (blank_state ∅ k2)).
Proof.
  intros structure build. subst structure build.
  pose proof (structure_passes_emits starting_pos tree_height platform_height
                platform_radius house_height block_type) as He.
  rewrite !(emits_calls_of _ _ _ He). split_and!; [done| |].
  - destruct (build_treehouse_calls starting_pos tree_height platform_height
                platform_radius house_height block_type st1)
      as (l1 & ? & _ & ?).
    destruct (build_treehouse_calls starting_pos tree_height platform_height
                platform_radius house_height block_type st2)
      as (l2 & ? & _ & ?).
    by exists l1, l2.
  - exists (Box.mk (0, 0, 0) (64, 200, 64)), 0, (2 ^ 53 - 1).
    split_and!; try lia.
    intros H. apply (f_equal length) in H. vm_compute in H. discriminate.
Qed.

(** ** One call per voxel, pass by pass *)

(** Closes the side conditions of [NoDup_bind_fst] for lists whose
    positions are [vadd] of the loop variables. *)
Ltac distinct_sites :=
  let H1 := fresh in let H2 := fresh in
  intros ? ? ? ? ? _ _ H1 H2; elem_calls H1; elem_calls H2;
  injection H1 as -> _; injection H2 as H2 _;
  apply vadd_inj in H2; injection H2; intros; lia.

Ltac nodup_sites :=
  repeat first
    [ apply NoDup_range
    | apply NoDup_range_step; lia
    | apply NoDup_fst_if
    | (csimpl; apply NoDup_singleton)
    | apply NoDup_bind_fst; [distinct_sites | intros ? _ | ] ].

Lemma NoDup_platform_calls sp ph r : NoDup (platform_calls sp ph r).*1.
Proof. unfold platform_calls. nodup_sites. Qed.

Lemma NoDup_wall_calls sp ph r hh bt : NoDup (wall_calls sp ph r hh bt).*1.
Proof. unfold wall_calls. nodup_sites. Qed.

Lemma NoDup_trunk_calls sp th : NoDup (trunk_calls sp th).*1.
Proof. unfold trunk_calls. nodup_sites. Qed.

Lemma NoDup_window_calls sp ph r hh : NoDup (window_calls sp ph r hh).*1.
Proof. unfold window_calls. nodup_sites. Qed.

Lemma NoDup_roof_calls sp ph r hh : NoDup (roof_calls sp ph r hh).*1.
Proof. unfold roof_calls. nodup_sites. Qed.

Lemma NoDup_ladder_calls sp ph : NoDup (ladder_calls sp ph).*1.
Proof. unfold ladder_calls. nodup_sites. Qed.

Lemma NoDup_leaf_sites sp ph r hh : NoDup (leaf_sites sp ph r hh).*1.
Proof. unfold leaf_sites. nodup_sites. Qed.

Lemma scatters_calls_of m sites st :
  scatters m sites -> calls_of m st `sublist_of` sites.
Proof.
  intros H. destruct (H st) as (cs & Hs & _ & Hp). unfold calls_of.
  by rewrite Hp, drop_app_length.
Qed.

(** Counterexample to C5 as stated: in the run of the script's own call,
    the voxel [(0, 10, 0)] (the centre of the platform, which the trunk
    crosses) is the target of more than one call. *)
Lemma tree_house_revisits_voxel :
  ~ forall p : Pos,
      (length (filter (fun c => c.1 = p)
                 (calls_of (tree_house_main example_area)
                           (blank_state ∅ 0%Z))) <= 1)%nat.
Proof.
  intros H. specialize (H (0, 10, 0)). vm_compute in H. lia.
Qed.

(** C5, amended: within each pass of [build_treehouse] (platform, walls,
    trunk, windows, roof, ladder, door, leaves) no voxel is the target of
    two calls; voxels can be targeted again by a later pass. *)
Theorem each_pass_one_call_per_voxel starting_pos tree_height platform_height
    platform_radius house_height block_type st :
  NoDup (calls_of (platform_pass starting_pos platform_height
                     platform_radius) st).*1 /\
  NoDup (calls_of (wall_pass starting_pos platform_height platform_radius
                     house_height block_type) st).*1 /\
  NoDup (calls_of (trunk_pass starting_pos tree_height) st).*1 /\
  NoDup (calls_of (window_pass starting_pos platform_height platform_radius
                     house_height) st).*1 /\
  NoDup (calls_of (roof_pass starting_pos platform_height platform_radius
                     house_height) st).*1 /\
  NoDup (calls_of (ladder_pass starting_pos platform_height) st).*1 /\
  NoDup (calls_of (door_pass starting_pos platform_height
                     platform_radius) st).*1 /\
  NoDup (calls_of (leaf_pass starting_pos platform_height platform_radius
                     house_height) st).*1.
Proof.
  rewrite (emits_calls_of _ _ st (platform_pass_emits _ _ _)).
  rewrite (emits_calls_of _ _ st (wall_pass_emits _ _ _ _ _)).
  rewrite (emits_calls_of _ _ st (trunk_pass_emits _ _)).
  rewrite (emits_calls_of _ _ st (window_pass_emits _ _ _ _)).
  rewrite (emits_calls_of _ _ st (roof_pass_emits _ _ _ _)).
  rewrite (emits_calls_of _ _ st (ladder_pass_emits _ _)).
  rewrite (emits_calls_of _ _ st (door_pass_emits _ _ _)).
  split_and!.
  - apply NoDup_platform_calls.
  - apply NoDup_wall_calls.
  - apply NoDup_trunk_calls.
  - apply NoDup_window_calls.
  - apply NoDup_roof_calls.
  - apply NoDup_ladder_calls.
  - apply NoDup_singleton.
  - eapply sublist_NoDup; [apply NoDup_leaf_sites|].
    apply fmap_sublist, scatters_calls_of, leaf_pass_scatters.
Qed.

(** ** [clear_area] *)

(** The descent of a column only looks at that column. *)
Lemma descent_both st st' x z start :
  same_column st st' x z ->
  exists s',
    descent x z start (world st (x, start - 1, z)) st'
    = (st', Ok (s', world st (x, s' - 1, z))) /\
    descent x z start (world st (x, start - 1, z)) st
    = (st, Ok (s', world st (x, s' - 1, z))).
Proof.
  intros Hc. remember (Z.to_nat start) as k eqn:Hk.
  revert start Hk. induction k as [k IH] using lt_wf_ind. intros start ->.
  destruct (descent_guard (world st (x, start - 1, z)) start) eqn:Hg.
  - pose proof (descent_guard_pos _ _ Hg) as Hpos.
    destruct (IH (Z.to_nat (start - 1)) ltac:(lia) (start - 1) eq_refl)
      as (s' & H1 & H2).
    exists s'. split.
    + rewrite (descent_true _ _ _ _ st') by done.
      by rewrite (Hc (start - 1 - 1)).
    + by rewrite (descent_true _ _ _ _ st) by done.
  - exists start. by rewrite !descent_false by done.
Qed.

Lemma descent_column st st' x z start :
  same_column st st' x z ->
  descent x z start (world st' (x, start - 1, z)) st'
  = (st', Ok (descent_start st x z start,
              world st (x, descent_start st x z start - 1, z))).
Proof.
  intros Hc. destruct (descent_both st st' x z start Hc) as (s' & H1 & H2).
  unfold descent_start. rewrite H2. simpl. by rewrite (Hc (start - 1)).
Qed.

Lemma array_get_ok a i j st :
  0 <= i < (shape a).1 -> 0 <= j < (shape a).2 ->
  array_get a i j st = (st, Ok (item a i j)).
Proof.
  intros Hi Hj. unfold array_get, axis_index.
  by rewrite !decide_True by done.
Qed.

Lemma bind_singleton_fmap {A B} (g : A -> B) (l : list A) :
  l ≫= (fun y => [g y]) = g <$> l.
Proof. induction l as [|y l IH]; csimpl; [done|]. by rewrite IH. Qed.

(** A loop whose body, at each element, emits calls that depend on an
    invariant of the store which the calls of the other elements keep. *)
Lemma for_emits_inv {A} (I : A -> State -> Prop) (l : list A)
    (body : A -> M unit) (f : A -> list (Pos * Block)) :
  NoDup l ->
  (forall a st, a ∈ l -> I a st -> body a st = (apply_calls (f a) st, Ok tt)) ->
  (forall a b st, a ∈ l -> b ∈ l -> a <> b ->
     I b st -> I b (apply_calls (f a) st)) ->
  forall st, (forall a, a ∈ l -> I a st) ->
    for_ l body st = (apply_calls (l ≫= f) st, Ok tt).
Proof.
  intros Hnd. induction Hnd as [|a l Ha Hnd IH]; intros Hbody Hkeep st HI.
  { simpl. by rewrite apply_calls_nil. }
  simpl. rewrite (bind_ok _ _ _ _ _ (Hbody a st ltac:(by left)
                                          (HI a ltac:(by left)))).
  rewrite IH.
  - by rewrite apply_calls_app.
  - intros b st' Hb. apply Hbody. by right.
  - intros b c st' Hb Hc. apply Hkeep; by right.
  - intros b Hb. apply Hkeep; [by left|by right| |apply HI; by right].
    intros ->. done.
Qed.

Lemma clear_column_emits st st' bottom top buildRect x z :
  fits buildRect bottom -> fits buildRect top ->
  in_rect buildRect x z -> same_column st st' x z ->
  (start ← array_get bottom (x - (Rect._offset buildRect).1)
                            (z - (Rect._offset buildRect).2);
   end_ ← array_get top (x - (Rect._offset buildRect).1)
                        (z - (Rect._offset buildRect).2);
   block ← getBlock (x, start - 1, z);
   '(start, block) ← descent x z start block;
   (if contains "dirt" (id block)
    then placeBlock (x, start - 1, z) air
    else mret tt) ;;
   for_ (range start end_) (fun y => placeBlock (x, y, z) air)) st'
  = (apply_calls (column_calls st bottom top buildRect x z) st', Ok tt).
Proof.
  intros [Hb1 Hb2] [Ht1 Ht2] [Hx Hz] Hc.
  rewrite (bind_ok _ _ _ _ _
             (array_get_ok bottom (x - (Rect._offset buildRect).1)
                (z - (Rect._offset buildRect).2) st' ltac:(lia) ltac:(lia))).
  rewrite (bind_ok _ _ _ _ _
             (array_get_ok top (x - (Rect._offset buildRect).1)
                (z - (Rect._offset buildRect).2) st' ltac:(lia) ltac:(lia))).
  unfold getBlock at 1.
  rewrite (bind_ok _ _ st' st' (world st' (x, _, z)) eq_refl).
  rewrite (bind_ok _ _ _ _ _ (descent_column st st' x z _ Hc)).
  unfold column_calls.
  apply (emits_bind _ _ _ _); [|].
  - apply emits_if; [apply emits_placeBlock|apply emits_ret].
  - rewrite <- bind_singleton_fmap. apply emits_for; intros y _.
    apply emits_placeBlock.
Qed.

Lemma elem_of_column_calls st bottom top buildRect x z p b :
  (p, b) ∈ column_calls st bottom top buildRect x z <->
  b = air /\
  exists y, p = (x, y, z) /\
    let start := descent_start st x z
                   (item bottom (x - (Rect._offset buildRect).1)
                                (z - (Rect._offset buildRect).2)) in
    (start <= y < item top (x - (Rect._offset buildRect).1)
                           (z - (Rect._offset buildRect).2) \/
     (y = start - 1 /\
      contains "dirt" (id (world st (x, start - 1, z))) = true)).
Proof.
  unfold column_calls. cbv zeta. rewrite elem_of_app, list_elem_of_fmap.
  split.
  - intros [H|(y & [= -> ->] & Hy)].
    + destruct (contains "dirt" _) eqn:Hd; [|by apply elem_of_nil in H].
      apply list_elem_of_singleton in H as [= -> ->]. eauto 10.
    + apply elem_of_range in Hy. eauto 10.
  - intros (-> & y & -> & [Hy|[-> Hd]]).
    + right. exists y. split; [done|]. by apply elem_of_range.
    + left. rewrite Hd. by apply list_elem_of_singleton.
Qed.

Lemma same_column_apply st st' cs x z :
  (forall c, c ∈ cs -> forall y, c.1 <> (x, y, z)) ->
  same_column st st' x z -> same_column st (apply_calls cs st') x z.
Proof.
  intros Hcs Hc y. simpl. rewrite foldl_set_block_notin; [apply Hc|].
  intros (c & Hy & Hin)%list_elem_of_fmap. by apply (Hcs c Hin y).
Qed.

Lemma clear_loops st st' bottom top buildRect :
  fits buildRect bottom -> fits buildRect top ->
  (forall x z, in_rect buildRect x z -> same_column st st' x z) ->
  for_ (range (Rect._offset buildRect).1
              ((Rect._offset buildRect).1 + (Rect.size buildRect).1))
    (fun x =>
     for_ (range (Rect._offset buildRect).2
                 ((Rect._offset buildRect).2 + (Rect.size buildRect).2))
       (fun z =>
        start ← array_get bottom (x - (Rect._offset buildRect).1)
                                 (z - (Rect._offset buildRect).2);
        end_ ← array_get top (x - (Rect._offset buildRect).1)
                             (z - (Rect._offset buildRect).2);
        block ← getBlock (x, start - 1, z);
        '(start, block) ← descent x z start block;
        (if contains "dirt" (id block)
         then placeBlock (x, start - 1, z) air
         else mret tt) ;;
        for_ (range start end_) (fun y => placeBlock (x, y, z) air))) st'
  = (apply_calls (clear_calls st bottom top buildRect) st', Ok tt).
Proof.
  intros Hb Ht Hsame. unfold clear_calls.
  apply (for_emits_inv
           (fun x s => forall z, in_rect buildRect x z -> same_column st s x z)).
  - apply NoDup_range.
  - intros x s Hx HI. apply elem_of_range in Hx.
    apply (for_emits_inv
             (fun z s => in_rect buildRect x z /\ same_column st s x z)).
    + apply NoDup_range.
    + intros z s' Hz [Hin Hc]. by apply clear_column_emits.
    + intros z1 z2 s' Hz1 Hz2 Hne [Hin Hc]. split; [done|].
      apply same_column_apply; [|done].
      intros [p b] (_ & y' & -> & _)%elem_of_column_calls y. simpl.
      congruence.
    + intros z Hz. apply elem_of_range in Hz.
      assert (in_rect buildRect x z) by done. auto.
  - intros x1 x2 s Hx1 Hx2 Hne HI z Hin.
    apply same_column_apply; [|by apply HI].
    intros [p b] (z' & Hp & _)%list_elem_of_bind y.
    apply elem_of_column_calls in Hp as (_ & y' & -> & _). simpl. congruence.
  - intros x Hx z Hin. by apply Hsame.
Qed.

(** What a run of [clear_area] does when both heightmaps are there and
    cover the rectangle. *)
Lemma clear_area_run heightmap buildRect build_area st bottom top :
  heightmaps st !! "MOTION_BLOCKING_NO_LEAVES" = Some bottom ->
  heightmaps st !! "WORLD_SURFACE" = Some top ->
  fits buildRect bottom -> fits buildRect top ->
  result (clear_area heightmap buildRect build_area) st = Ok tt /\
  calls_of (clear_area heightmap buildRect build_area) st
  = clear_calls st bottom top buildRect /\
  world (exec (clear_area heightmap buildRect build_area) st)
  = foldl (fun w c => set_block w c.1 c.2) (world st)
      (clear_calls st bottom top buildRect).
Proof.
  intros Hbot Htop Hb Ht. unfold clear_area, calls_of, result, exec.
  assert (heightmap_get "MOTION_BLOCKING_NO_LEAVES" st = (st, Ok bottom)) as H1.
  { unfold heightmap_get. by rewrite Hbot. }
  assert (heightmap_get "WORLD_SURFACE" st = (st, Ok top)) as H2.
  { unfold heightmap_get. by rewrite Htop. }
  rewrite (bind_ok _ _ _ _ _ H1), (bind_ok _ _ _ _ _ H2).
  rewrite (bind_ok _ _ _ _ _
             (clear_loops st st bottom top buildRect Hb Ht
                (fun x z _ y => eq_refl))).
  simpl. by rewrite drop_app_length.
Qed.

Lemma elem_of_clear_calls st bottom top buildRect p b :
  (p, b) ∈ clear_calls st bottom top buildRect <->
  exists x z, in_rect buildRect x z /\
              (p, b) ∈ column_calls st bottom top buildRect x z.
Proof.
  unfold clear_calls, in_rect. rewrite list_elem_of_bind. split.
  - intros (x & (z & H & Hz)%list_elem_of_bind & Hx).
    apply elem_of_range in Hx, Hz. eauto.
  - intros (x & z & [Hx Hz] & H). exists x.
    split; [|by apply elem_of_range].
    apply list_elem_of_bind. exists z. split; [done|by apply elem_of_range].
Qed.

Lemma descent_start_step st x z start :
  descent_guard (world st (x, start - 1, z)) start = true ->
  descent_start st x z start = descent_start st x z (start - 1).
Proof.
  intros Hg. unfold descent_start at 1. rewrite descent_true by done.
  by rewrite (descent_column st st x z (start - 1) (fun y => eq_refl)).
Qed.

Lemma descent_start_stop st x z start :
  descent_guard (world st (x, start - 1, z)) start = false ->
  descent_start st x z start = start.
Proof. intros Hg. unfold descent_start. by rewrite descent_false. Qed.

(** The exit of the descent, as a number of iterations. *)
Lemma descent_start_spec st x z start :
  exists n : nat,
    descent_start st x z start = start - Z.of_nat n /\
    (forall j : nat, (j < n)%nat ->
       descent_guard (world st (x, start - Z.of_nat j - 1, z))
                     (start - Z.of_nat j) = true) /\
    descent_guard (world st (x, start - Z.of_nat n - 1, z))
                  (start - Z.of_nat n) = false.
Proof.
  remember (Z.to_nat start) as k eqn:Hk.
  revert start Hk. induction k as [k IH] using lt_wf_ind. intros start ->.
  destruct (descent_guard (world st (x, start - 1, z)) start) eqn:Hg.
  - pose proof (descent_guard_pos _ _ Hg) as Hpos.
    destruct (IH (Z.to_nat (start - 1)) ltac:(lia) (start - 1) eq_refl)
      as (n & Hn & Hlt & Hex).
    exists (S n). rewrite descent_start_step by done. rewrite Hn.
    split_and!.
    + lia.
    + intros [|j] Hj.
      * by replace (start - Z.of_nat 0) with start by lia.
      * replace (start - Z.of_nat (S j)) with (start - 1 - Z.of_nat j) by lia.
        apply Hlt. lia.
    + by replace (start - Z.of_nat (S n)) with (start - 1 - Z.of_nat n)
        by lia.
  - exists 0%nat. rewrite descent_start_stop by done. split_and!.
    + lia.
    + intros j Hj. lia.
    + by replace (start - Z.of_nat 0) with start by lia.
Qed.

Example example_clear_area_calls :
  calls_of (clear_area (flat_array 2 2 3) example_rect example_area)
           example_state
  = [((0, 1, 0), air); ((0, 2, 0), air); ((0, 3, 0), air); ((0, 4, 0), air);
     ((0, 3, 1), air); ((0, 4, 1), air);
     ((1, 3, 0), air); ((1, 4, 0), air);
     ((1, 3, 1), air); ((1, 4, 1), air)].
Proof. vm_compute. reflexivity. Qed.

(** C1: when both heightmaps are there and cover the rectangle,
    [clear_area] returns and, in every column [(x, z)] of the rectangle,
    every block at a height [y] with [start <= y < end] is set to air,
    [start] being the MOTION_BLOCKING_NO_LEAVES value after the descent and
    [end] the WORLD_SURFACE value; the only other call in the column is the
    one on the dirt block just below [start]. *)
Theorem clear_area_clears_columns heightmap buildRect build_area st
    bottom top :
  heightmaps st !! "MOTION_BLOCKING_NO_LEAVES" = Some bottom ->
  heightmaps st !! "WORLD_SURFACE" = Some top ->
  fits buildRect bottom -> fits buildRect top ->
  let run := clear_area heightmap buildRect build_area in
  result run st = Ok tt /\
  forall x z, in_rect buildRect x z ->
    let start := descent_start st x z
                   (item bottom (x - (Rect._offset buildRect).1)
                                (z - (Rect._offset buildRect).2)) in
    let end_ := item top (x - (Rect._offset buildRect).1)
                         (z - (Rect._offset buildRect).2) in
    (forall y, start <= y < end_ ->
       ((x, y, z), air) ∈ calls_of run st /\
       world (exec run st) (x, y, z) = air) /\
    (forall y b, ((x, y, z), b) ∈ calls_of run st ->
       b = air /\
       (start <= y < end_ \/
        (y = start - 1 /\
         contains "dirt" (id (world st (x, start - 1, z))) = true))).
Proof.
  intros Hbot Htop Hb Ht run. subst run.
  destruct (clear_area_run heightmap buildRect build_area st bottom top
              Hbot Htop Hb Ht) as (Hr & Hcalls & Hw).
  rewrite Hcalls, Hw. split; [done|]. intros x z Hin start end_. split.
  - intros y Hy.
    assert (((x, y, z), air) ∈ clear_calls st bottom top buildRect) as Hc.
    { apply elem_of_clear_calls. exists x, z. split; [done|].
      apply elem_of_column_calls. split; [done|]. exists y. split; [done|].
      by left. }
    split; [done|]. apply foldl_set_block_in.
    + intros c (x' & z' & _ & Hc')%elem_of_clear_calls.
      by apply elem_of_column_calls in Hc' as [-> _].
    + apply list_elem_of_fmap. by eexists (_, _).
  - intros y b (x' & z' & _ & Hc)%elem_of_clear_calls.
    apply elem_of_column_calls in Hc as (-> & y' & [= <- <- <-] & Hy).
    done.
Qed.

Lemma clear_area_clears_columns_witness :
  (fits example_rect (flat_array 2 2 3) /\
   fits example_rect (flat_array 2 2 5)) /\
  result (clear_area (flat_array 2 2 3) example_rect example_area)
         example_state = Ok tt.
Proof.
  split; [split; split; simpl; lia|].
  apply (clear_area_clears_columns (flat_array 2 2 3) example_rect
           example_area example_state (flat_array 2 2 3) (flat_array 2 2 5)).
  - reflexivity.
  - reflexivity.
  - split; simpl; lia.
  - split; simpl; lia.
Defined.

(** The loop condition of the descent, test by test. *)
Lemma descent_guard_true block start :
  descent_guard block start = true <->
  (contains "log" (id block) = true \/
   contains "leaves" (id block) = true \/
   contains "mushroom" (id block) = true) /\ start > 0.
Proof.
  unfold descent_guard.
  rewrite andb_true_iff, !orb_true_iff, bool_decide_eq_true. tauto.
Qed.

Lemma descent_guard_false block start :
  descent_guard block start = false <->
  (contains "log" (id block) = false /\
   contains "leaves" (id block) = false /\
   contains "mushroom" (id block) = false) \/ start <= 0.
Proof.
  unfold descent_guard.
  rewrite andb_false_iff, !orb_false_iff, bool_decide_eq_false.
  split; [intros [[[? ?] ?]|?]; [tauto|right; lia]
         |intros [(? & ? & ?)|?]; [tauto|right; lia]].
Qed.

(** C2: in every column of the rectangle the start depth is the heightmap
    value decremented [n] times, where before each decrement the block at
    [(x, start - 1, z)] has an id containing "log", "leaves" or "mushroom"
    and [start > 0], and at the exit the id of that block contains none of
    the three words or [start <= 0]; then, if the block below the start
    depth has an id containing "dirt" it is replaced with air, and otherwise
    no call targets it and it is left as it was. *)
Theorem clear_area_boundary heightmap buildRect build_area st bottom top :
  heightmaps st !! "MOTION_BLOCKING_NO_LEAVES" = Some bottom ->
  heightmaps st !! "WORLD_SURFACE" = Some top ->
  fits buildRect bottom -> fits buildRect top ->
  let run := clear_area heightmap buildRect build_area in
  forall x z, in_rect buildRect x z ->
    let h := item bottom (x - (Rect._offset buildRect).1)
                         (z - (Rect._offset buildRect).2) in
    let below start := id (world st (x, start - 1, z)) in
    exists n : nat,
      let start := h - Z.of_nat n in
      descent_start st x z h = start /\
      (forall j : nat, (j < n)%nat ->
         (contains "log" (below (h - Z.of_nat j)) = true \/
          contains "leaves" (below (h - Z.of_nat j)) = true \/
          contains "mushroom" (below (h - Z.of_nat j)) = true) /\
         h - Z.of_nat j > 0) /\
      ((contains "log" (below start) = false /\
        contains "leaves" (below start) = false /\
        contains "mushroom" (below start) = false) \/ start <= 0) /\
      (contains "dirt" (below start) = true ->
         ((x, start - 1, z), air) ∈ calls_of run st /\
         world (exec run st) (x, start - 1, z) = air) /\
      (contains "dirt" (below start) = false ->
         (forall b, ((x, start - 1, z), b) ∉ calls_of run st) /\
         world (exec run st) (x, start - 1, z)
         = world st (x, start - 1, z)).
Proof.
  intros Hbot Htop Hb Ht run x z Hin h below. subst run below.
  destruct (clear_area_run heightmap buildRect build_area st bottom top
              Hbot Htop Hb Ht) as (Hr & Hcalls & Hw).
  rewrite Hcalls, Hw.
  destruct (descent_start_spec st x z h) as (n & Hn & Hlt & Hex).
  exists n. cbv zeta. split_and!; [done| |by apply descent_guard_false| |].
  - intros j Hj. by apply descent_guard_true, Hlt.
  - intros Hd.
    assert (((x, h - Z.of_nat n - 1, z), air)
            ∈ clear_calls st bottom top buildRect) as Hc.
    { apply elem_of_clear_calls. exists x, z. split; [done|].
      apply elem_of_column_calls. split; [done|].
      exists (h - Z.of_nat n - 1). split; [done|]. right.
      fold h. rewrite Hn. done. }
    split; [done|]. apply foldl_set_block_in.
    + intros c (x' & z' & _ & Hc')%elem_of_clear_calls.
      by apply elem_of_column_calls in Hc' as [-> _].
    + apply list_elem_of_fmap. by eexists (_, _).
  - intros Hd.
    assert (forall b, ((x, h - Z.of_nat n - 1, z), b)
                      ∉ clear_calls st bottom top buildRect) as Hno.
    { intros b (x' & z' & _ & Hc)%elem_of_clear_calls.
      apply elem_of_column_calls in Hc as (_ & y' & [= <- Hy <-] & Hc).
      fold h in Hc. rewrite Hn in Hc. destruct Hc as [Hc|[_ Hc]]; [lia|].
      congruence. }
    split; [done|]. apply foldl_set_block_notin.
    intros ([p b] & Hp & Hc)%list_elem_of_fmap. simpl in Hp. subst p.
    by apply (Hno b).
Qed.

(** In the example the heightmap says 3 in column (0, 0), with a log at
    height 2 over dirt at height 1: the descent makes one step, to 2, and
    the dirt block below is replaced with air. *)
Lemma clear_area_boundary_witness :
  (in_rect example_rect 0 0 /\
   fits example_rect (flat_array 2 2 3) /\
   fits example_rect (flat_array 2 2 5)) /\
  descent_start example_state 0 0 3 = 2 /\
  world (exec (clear_area (flat_array 2 2 3) example_rect example_area)
              example_state) (0, 1, 0) = air.
Proof.
  split; [split_and!; split; simpl; lia|].
  destruct (clear_area_boundary (flat_array 2 2 3) example_rect example_area
              example_state (flat_array 2 2 3) (flat_array 2 2 5)
              eq_refl eq_refl
              ltac:(split; simpl; lia) ltac:(split; simpl; lia)
              0 0 ltac:(split; simpl; lia))
    as (n & Hn & Hlt & Hex & Hdirt & _).
  change (item (flat_array 2 2 3) _ _) with 3 in *.
  destruct n as [|[|n]].
  - destruct Hex as [(Hlog & _)|Hle]; [|simpl in Hle; lia].
    vm_compute in Hlog. discriminate Hlog.
  - split; [exact Hn|]. apply Hdirt. vm_compute. reflexivity.
  - destruct (Hlt 1%nat ltac:(lia)) as [[H|[H|H]] _];
      vm_compute in H; discriminate H.
Defined.

(** ** Where the calls go *)

Lemma confined_silent P {A} (m : M A) :
  (forall st, placed (exec m st) = placed st) -> confined P m.
Proof.
  intros H st. exists []. split; [|constructor]. by rewrite H, app_nil_r.
Qed.

Lemma confined_ret P {A} (a : A) : confined P (mret a : M A).
Proof. by apply confined_silent. Qed.

Lemma confined_placeBlock (P : Pos -> Prop) p b :
  P p -> confined P (placeBlock p b).
Proof. intros Hp st. exists [(p, b)]. split; [done|]. by constructor. Qed.

Lemma confined_bind P {A B} (m : M A) (k : A -> M B) :
  confined P m -> (forall a, confined P (k a)) -> confined P (m ≫= k).
Proof.
  intros Hm Hk st. destruct (Hm st) as (cs1 & Hp1 & Hf1).
  unfold exec, mbind, M_bind in *.
  destruct (m st) as [st1 [a|e]]; simpl in *; [|by exists cs1].
  destruct (Hk a st1) as (cs2 & Hp2 & Hf2). exists (cs1 ++ cs2).
  unfold exec in Hp2. rewrite Hp2, Hp1, app_assoc. split; [done|].
  by apply Forall_app.
Qed.

Lemma confined_for P {A} (l : list A) (body : A -> M unit) :
  (forall x, x ∈ l -> confined P (body x)) -> confined P (for_ l body).
Proof.
  induction l as [|x l IH]; intros Hb; simpl.
  - apply confined_ret.
  - apply confined_bind; [apply Hb; by left|].
    intros _. apply IH. intros y Hy. apply Hb. by right.
Qed.

Lemma confined_descent P x z start block :
  confined P (descent x z start block).
Proof.
  apply confined_silent. intros st. unfold exec.
  by destruct (descent_run x z start block st) as (n & c' & _ & _ & ->).
Qed.

Lemma confined_calls_of P {A} (m : M A) st p b :
  confined P m -> (p, b) ∈ calls_of m st -> P p.
Proof.
  intros H Hin. destruct (H st) as (cs & Hp & Hf). unfold calls_of in Hin.
  rewrite Hp, drop_app_length in Hin.
  by apply (proj1 (Forall_forall _ _) Hf (p, b)).
Qed.

Lemma confined_heightmap_get P key : confined P (heightmap_get key).
Proof.
  apply confined_silent. intros st. unfold exec, heightmap_get.
  by destruct (_ !! _).
Qed.

Lemma confined_array_get P a i j : confined P (array_get a i j).
Proof.
  apply confined_silent. intros st. unfold exec, array_get.
  by destruct (axis_index (fst (shape a)) i), (axis_index (snd (shape a)) j).
Qed.

Lemma confined_getBlock P p : confined P (getBlock p).
Proof. by apply confined_silent. Qed.

Lemma confined_print P args : confined P (print args).
Proof. by apply confined_silent. Qed.

Lemma confined_random_lt P d : confined P (random_lt d).
Proof. by apply confined_silent. Qed.

Lemma clear_area_confined heightmap buildRect build_area :
  confined (fun p => in_rect buildRect p.1.1 p.2)
           (clear_area heightmap buildRect build_area).
Proof.
  unfold clear_area.
  apply confined_bind; [apply confined_heightmap_get|intros bottom].
  apply confined_bind; [apply confined_heightmap_get|intros top].
  apply confined_bind; [|intros _; apply confined_print].
  apply confined_for; intros x Hx. apply confined_for; intros z Hz.
  apply elem_of_range in Hx, Hz.
  assert (in_rect buildRect x z) as Hin by done.
  apply confined_bind; [apply confined_array_get|intros start].
  apply confined_bind; [apply confined_array_get|intros end_].
  apply confined_bind; [apply confined_getBlock|intros block].
  apply confined_bind; [apply confined_descent|intros [start' block']].
  apply confined_bind.
  - destruct (contains _ _); [by apply confined_placeBlock
                             |apply confined_ret].
  - intros _. apply confined_for; intros y _. by apply confined_placeBlock.
Qed.

Lemma near_vadd sp d x y z :
  - d <= x <= d -> - d <= z <= d -> near sp d (vadd sp (x, y, z)).
Proof. destruct sp as [[sx sy] sz]. unfold near. simpl. lia. Qed.

Lemma build_treehouse_confined sp th ph r hh bt :
  0 <= r ->
  confined (near sp (r + 1)) (build_treehouse sp th ph r hh bt).
Proof.
  intros Hr.
  unfold build_treehouse, structure_passes, platform_pass, wall_pass,
    trunk_pass, window_pass, roof_pass, ladder_pass, door_pass, leaf_pass.
  repeat first
    [ apply confined_ret
    | apply confined_random_lt
    | apply confined_placeBlock; apply near_vadd; lia
    | apply confined_bind; [|intros ?]
    | (apply confined_for; intros ? ?)
    | match goal with
      | |- confined _ (if ?c then _ else _) => destruct c
      | H : _ ∈ range _ _ |- _ => apply elem_of_range in H
      | H : _ ∈ range_step _ _ _ |- _ =>
          apply elem_of_range_step in H as [H _]; [|lia]
      end ].
Qed.

(** Counterexample to C6 as stated: run as the script runs it, with
    [starting_pos = buildArea.begin], the builder's first call targets
    [x = begin.x - 3], outside the build rectangle. *)
Lemma tree_house_leaves_build_area :
  ~ forall p b,
      (p, b) ∈ calls_of (tree_house_main example_area) (blank_state ∅ 0) ->
      in_rect (Box.toRect example_area) p.1.1 p.2.
Proof.
  intros H. specialize (H (-3, 10, 0) oak_log).
  assert (calls_of (tree_house_main example_area) (blank_state ∅ 0) !! 0%nat
          = Some ((-3, 10, 0), oak_log)) as H0 by (vm_compute; reflexivity).
  apply list_elem_of_lookup_2 in H0. apply H in H0.
  destruct H0 as [[H0 _] _]. simpl in H0. lia.
Qed.

(** C6, amended: every call of [clear_area] targets a column of the
    rectangle it is given, whether the run returns or raises; every call of
    [build_treehouse], for a radius [r >= 0], targets a column within
    [r + 1] of [starting_pos] along x and along z. *)
Theorem placements_confined starting_pos tree_height platform_height
    platform_radius house_height block_type :
  0 <= platform_radius ->
  (forall heightmap buildRect build_area st p b,
     (p, b) ∈ calls_of (clear_area heightmap buildRect build_area) st ->
     in_rect buildRect p.1.1 p.2) /\
  (forall st p b,
     (p, b) ∈ calls_of (build_treehouse starting_pos tree_height
                          platform_height platform_radius house_height
                          block_type) st ->
     starting_pos.1.1 - (platform_radius + 1) <= p.1.1
       <= starting_pos.1.1 + (platform_radius + 1) /\
     starting_pos.2 - (platform_radius + 1) <= p.2
       <= starting_pos.2 + (platform_radius + 1)).
Proof.
  intros Hr. split.
  - intros heightmap buildRect build_area st p b Hin.
    by apply (confined_calls_of _ _ st p b
                (clear_area_confined heightmap buildRect build_area)).
  - intros st p b Hin.
    by apply (confined_calls_of _ _ st p b
                (build_treehouse_confined starting_pos tree_height
                   platform_height platform_radius house_height block_type
                   Hr)).
Qed.

Lemma placements_confined_witness :
  0 <= 3 /\
  forall st p b,
    (p, b) ∈ calls_of (tree_house_main example_area) st ->
    -4 <= p.1.1 <= 4 /\ -4 <= p.2 <= 4.
Proof.
  split; [lia|].
  apply (proj2 (placements_confined (0, 0, 0) 15 10 3 4 oak_log
                  ltac:(lia))).
Defined.

(** * Further properties of the code *)

(** ** The substring test *)

Lemma prefix_spec sub s :
  String.prefix sub s = true <-> exists post, s = (sub +:+ post)%string.
Proof.
  revert s. induction sub as [|a sub IH]; intros s; simpl.
  - split; [intros _; by exists s|by destruct s].
  - destruct s as [|b s]; simpl.
    + split; [done|intros [post [=]]].
    + destruct (Ascii.ascii_dec a b) as [->|Hne].
      * rewrite IH. split; intros [post Hp]; exists post;
          [by rewrite Hp|by injection Hp].
      * split; [done|intros [post [= ? ?]]; congruence].
Qed.

Lemma contains_empty sub : contains sub "" = String.prefix sub "".
Proof. unfold contains. by rewrite orb_false_r. Qed.

Lemma contains_String sub b s :
  contains sub (String b s) = String.prefix sub (String b s) || contains sub s.
Proof. done. Qed.

(** X1: [sub in s] holds exactly when [s] is some text, then [sub], then some
    text: the model of Python's substring test is the substring relation. *)
Theorem contains_spec sub s :
  contains sub s = true <->
  exists pre post, s = (pre +:+ sub +:+ post)%string.
Proof.
  induction s as [|b s IH].
  - rewrite contains_empty, prefix_spec. split.
    + intros [post Hp]. by exists "", post.
    + intros (pre & post & Hp). destruct pre; [by exists post|done].
  - rewrite contains_String, orb_true_iff, prefix_spec, IH. split.
    + intros [[post Hp]|(pre & post & Hp)].
      * by exists "", post.
      * exists (String b pre), post. simpl. by rewrite Hp.
    + intros (pre & post & Hp). destruct pre as [|c pre]; simpl in Hp.
      * left. by exists post.
      * right. injection Hp as -> ->. by exists pre, post.
Qed.

(** ** What a run can change *)

Lemma effects_silent P {A} (m : M A) :
  (forall st, placed (exec m st) = placed st /\ world (exec m st) = world st) ->
  effects P m.
Proof.
  intros H st. destruct (H st) as [Hp Hw]. exists [].
  split_and!; [by rewrite Hp, app_nil_r|done|constructor].
Qed.

Lemma effects_ret P {A} (a : A) : effects P (mret a : M A).
Proof. by apply effects_silent. Qed.

Lemma effects_getBlock P p : effects P (getBlock p).
Proof. by apply effects_silent. Qed.

Lemma effects_print P args : effects P (print args).
Proof. by apply effects_silent. Qed.

Lemma effects_random_lt P d : effects P (random_lt d).
Proof. by apply effects_silent. Qed.

Lemma effects_heightmap_get P key : effects P (heightmap_get key).
Proof.
  apply effects_silent. intros st. unfold exec, heightmap_get.
  by destruct (_ !! _).
Qed.

Lemma effects_array_get P a i j : effects P (array_get a i j).
Proof.
  apply effects_silent. intros st. unfold exec, array_get.
  by destruct (axis_index (fst (shape a)) i), (axis_index (snd (shape a)) j).
Qed.

Lemma effects_descent P x z start block : effects P (descent x z start block).
Proof.
  apply effects_silent. intros st. unfold exec.
  by destruct (descent_run x z start block st) as (n & c' & _ & _ & ->).
Qed.

Lemma effects_placeBlock (P : Pos -> Prop) p b :
  P p -> effects P (placeBlock p b).
Proof.
  intros Hp st. exists [(p, b)]. split_and!; [done|done|by constructor].
Qed.

Lemma effects_bind P {A B} (m : M A) (k : A -> M B) :
  effects P m -> (forall a, effects P (k a)) -> effects P (m ≫= k).
Proof.
  intros Hm Hk st. destruct (Hm st) as (cs1 & Hp1 & Hw1 & Hf1).
  unfold exec, mbind, M_bind in *.
  destruct (m st) as [st1 [a|e]]; simpl in *; [|by exists cs1].
  destruct (Hk a st1) as (cs2 & Hp2 & Hw2 & Hf2). exists (cs1 ++ cs2).
  unfold exec in Hp2, Hw2.
  rewrite Hp2, Hw2, Hp1, Hw1, app_assoc, foldl_app.
  split_and!; [done|done|by apply Forall_app].
Qed.

Lemma effects_for P {A} (l : list A) (body : A -> M unit) :
  (forall x, x ∈ l -> effects P (body x)) -> effects P (for_ l body).
Proof.
  induction l as [|x l IH]; intros Hb; simpl.
  - apply effects_ret.
  - apply effects_bind; [apply Hb; by left|].
    intros _. apply IH. intros y Hy. apply Hb. by right.
Qed.

(** A block at a position outside [P] is not changed. *)
Lemma effects_frame P {A} (m : M A) st p :
  effects P m -> ~ P p -> world (exec m st) p = world st p.
Proof.
  intros H Hp. destruct (H st) as (cs & _ & Hw & Hf). rewrite Hw.
  apply foldl_set_block_notin.
  intros ([q b] & -> & Hin)%list_elem_of_fmap.
  apply Hp. by apply (proj1 (Forall_forall _ _) Hf (q, b)).
Qed.

Lemma effects_calls_of P {A} (m : M A) st :
  effects P m -> Forall (fun c => P c.1) (calls_of m st).
Proof.
  intros H. destruct (H st) as (cs & Hp & _ & Hf). unfold calls_of.
  by rewrite Hp, drop_app_length.
Qed.

(** Solves [effects] goals over the loops of the scripts, leaving to [tac]
    the position of each [placeBlock]. *)
Ltac effects_tac tac :=
  repeat first
    [ apply effects_ret | apply effects_getBlock | apply effects_print
    | apply effects_random_lt | apply effects_heightmap_get
    | apply effects_array_get | apply effects_descent
    | apply effects_placeBlock; tac
    | apply effects_bind; [|intros ?]
    | (apply effects_for; intros ? ?)
    | match goal with
      | |- effects _ (let '(_, _) := ?c in _) => destruct c
      | |- effects _ (if ?c then _ else _) => destruct c
      | H : _ ∈ range _ _ |- _ => apply elem_of_range in H
      | H : _ ∈ range_step _ _ _ |- _ =>
          apply elem_of_range_step in H as [H _]; [|lia]
      end ].

Lemma clear_area_effects heightmap buildRect build_area :
  effects (fun p => in_rect buildRect p.1.1 p.2)
          (clear_area heightmap buildRect build_area).
Proof. unfold clear_area. effects_tac ltac:(by split). Qed.

Lemma flatten_area_effects heightmap buildRect build_area :
  effects (fun p => in_rect buildRect p.1.1 p.2 /\
                    p.1.2 = (Box.begin build_area).1.2 - 1)
          (flatten_area heightmap buildRect build_area).
Proof. unfold flatten_area. effects_tac ltac:(by split). Qed.

(** ** Edge and error behaviour of the area utilities *)

(** X2: [clear_area] never changes or targets a block outside the columns of
    its rectangle, whether it returns or raises. *)
Theorem clear_area_outside_untouched heightmap buildRect build_area st p :
  ~ in_rect buildRect p.1.1 p.2 ->
  world (exec (clear_area heightmap buildRect build_area) st) p = world st p /\
  forall b, (p, b) ∉ calls_of (clear_area heightmap buildRect build_area) st.
Proof.
  intros Hout.
  pose proof (clear_area_effects heightmap buildRect build_area) as He.
  split; [by apply (effects_frame _ _ st p He)|].
  intros b Hin. apply Hout.
  by apply (proj1 (Forall_forall _ _) (effects_calls_of _ _ st He) (p, b)).
Qed.

Lemma clear_area_outside_untouched_witness :
  ~ in_rect example_rect 5 5 /\
  world (exec (clear_area (flat_array 2 2 3) example_rect example_area)
              example_state) (5, 0, 5)
  = world example_state (5, 0, 5).
Proof.
  assert (~ in_rect example_rect 5 5) as H.
  { unfold in_rect. simpl. lia. }
  split; [exact H|].
  apply (clear_area_outside_untouched (flat_array 2 2 3) example_rect
           example_area example_state (5, 0, 5) H).
Defined.

(** X3: A missing heightmap makes [clear_area] raise [KeyError] for the first
    missing key before it reads or places any block: the store is left as it
    was. *)
Theorem clear_area_missing_heightmap heightmap buildRect build_area st :
  heightmaps st !! "MOTION_BLOCKING_NO_LEAVES" = None \/
  heightmaps st !! "WORLD_SURFACE" = None ->
  clear_area heightmap buildRect build_area st
  = (st, Raise (KeyError
                  (match heightmaps st !! "MOTION_BLOCKING_NO_LEAVES" with
                   | Some _ => "WORLD_SURFACE"
                   | None => "MOTION_BLOCKING_NO_LEAVES"
                   end))).
Proof.
  intros H. unfold clear_area.
  destruct (heightmaps st !! "MOTION_BLOCKING_NO_LEAVES") as [bottom|] eqn:Hb.
  - destruct H as [H|H]; [done|].
    assert (heightmap_get "MOTION_BLOCKING_NO_LEAVES" st = (st, Ok bottom))
      as H1 by (unfold heightmap_get; by rewrite Hb).
    rewrite (bind_ok _ _ _ _ _ H1).
    apply bind_raise. unfold heightmap_get. by rewrite H.
  - apply bind_raise. unfold heightmap_get. by rewrite Hb.
Qed.

Lemma clear_area_missing_heightmap_witness :
  heightmaps (blank_state ∅ 0) !! "MOTION_BLOCKING_NO_LEAVES" = None /\
  result (clear_area (flat_array 2 2 3) example_rect example_area)
         (blank_state ∅ 0)
  = Raise (KeyError "MOTION_BLOCKING_NO_LEAVES").
Proof.
  split; [reflexivity|]. unfold result.
  rewrite (clear_area_missing_heightmap (flat_array 2 2 3) example_rect
             example_area (blank_state ∅ 0) ltac:(left; reflexivity)).
  reflexivity.
Defined.

(** X4: On a rectangle with no column (a size that is zero or negative along x
    or z) neither utility places a block or changes the world. *)
Theorem empty_rectangle_untouched heightmap buildRect build_area st :
  (Rect.size buildRect).1 <= 0 \/ (Rect.size buildRect).2 <= 0 ->
  calls_of (clear_area heightmap buildRect build_area) st = [] /\
  world (exec (clear_area heightmap buildRect build_area) st) = world st /\
  calls_of (flatten_area heightmap buildRect build_area) st = [] /\
  world (exec (flatten_area heightmap buildRect build_area) st) = world st.
Proof.
  intros Hempty.
  assert (forall x z, ~ in_rect buildRect x z) as Hno.
  { intros x z [Hx Hz]. lia. }
  assert (forall P {A} (m : M A),
            effects P m -> (forall p, ~ P p) ->
            calls_of m st = [] /\ world (exec m st) = world st) as Hgen.
  { intros P A m He HP. destruct (He st) as (cs & Hp & Hw & Hf).
    assert (cs = []) as ->.
    { destruct cs as [|c cs]; [done|].
      apply Forall_cons in Hf as [Hc _]. by apply HP in Hc. }
    unfold calls_of. rewrite Hp, Hw, drop_app_length. done. }
  destruct (Hgen _ _ _ (clear_area_effects heightmap buildRect build_area)
              ltac:(intros p; apply Hno)) as [? ?].
  destruct (Hgen _ _ _ (flatten_area_effects heightmap buildRect build_area)
              ltac:(intros p [Hp _]; by apply Hno in Hp)) as [? ?].
  done.
Qed.

Lemma empty_rectangle_untouched_witness :
  calls_of (clear_area (flat_array 2 2 3) (Rect.mk (0, 0) (0, 7))
              example_area) example_state = [].
Proof.
  apply (empty_rectangle_untouched (flat_array 2 2 3) (Rect.mk (0, 0) (0, 7))
           example_area example_state).
  left. simpl. lia.
Defined.

(** X5: The descent stays between 0 and the heightmap value: from a start that
    is not negative it ends at a depth that is not negative, and from a
    negative start it does not move. *)
Theorem descent_start_bounds st x z start :
  Z.min start 0 <= descent_start st x z start <= start.
Proof.
  destruct (descent_start_spec st x z start) as (n & -> & Hlt & _).
  destruct n as [|n]; [lia|].
  specialize (Hlt n ltac:(lia)). apply descent_guard_pos in Hlt. lia.
Qed.

(** X6: The world [flatten_area] leaves: a [grass_block] at height
    [begin[1] - 1] in every column of the rectangle, and every other block
    as it was. *)
Theorem flatten_area_final_world heightmap buildRect build_area st p :
  let min := (Box.begin build_area).1.2 - 1 in
  world (exec (flatten_area heightmap buildRect build_area) st) p
  = if decide (in_rect buildRect p.1.1 p.2 /\ p.1.2 = min)
    then grass_block else world st p.
Proof.
  intros min. destruct (decide _) as [[Hin Hy]|Hout].
  - destruct p as [[x y] z]. simpl in *. subst y.
    destruct (flatten_area_issues heightmap buildRect build_area st)
      as (_ & _ & ->).
    apply foldl_set_block_in.
    + by intros c [-> _]%elem_of_flatten_calls.
    + apply list_elem_of_fmap. exists ((x, min, z), grass_block).
      split; [done|]. apply elem_of_flatten_calls. eauto.
  - by apply (effects_frame _ _ st p
                (flatten_area_effects heightmap buildRect build_area)).
Qed.

(** X7: The world [clear_area] leaves in a column of the rectangle, when both
    heightmaps are there and cover it: air from the descended start up to
    the surface and on a dirt block just below the start; every other block
    of the column, below or above, is as it was. *)
Theorem clear_area_final_world heightmap buildRect build_area st bottom top :
  heightmaps st !! "MOTION_BLOCKING_NO_LEAVES" = Some bottom ->
  heightmaps st !! "WORLD_SURFACE" = Some top ->
  fits buildRect bottom -> fits buildRect top ->
  forall x y z, in_rect buildRect x z ->
    let start := descent_start st x z
                   (item bottom (x - (Rect._offset buildRect).1)
                                (z - (Rect._offset buildRect).2)) in
    let end_ := item top (x - (Rect._offset buildRect).1)
                         (z - (Rect._offset buildRect).2) in
    world (exec (clear_area heightmap buildRect build_area) st) (x, y, z)
    = if decide (start <= y < end_ \/
                 (y = start - 1 /\
                  contains "dirt" (id (world st (x, start - 1, z))) = true))
      then air else world st (x, y, z).
Proof.
  intros Hbot Htop Hb Ht x y z Hin start end_.
  destruct (clear_area_run heightmap buildRect build_area st bottom top
              Hbot Htop Hb Ht) as (_ & _ & ->).
  destruct (decide _) as [Hy|Hy].
  - apply foldl_set_block_in.
    + intros c (x' & z' & _ & Hc')%elem_of_clear_calls.
      by apply elem_of_column_calls in Hc' as [-> _].
    + apply list_elem_of_fmap. exists ((x, y, z), air). split; [done|].
      apply elem_of_clear_calls. exists x, z. split; [done|].
      apply elem_of_column_calls. split; [done|]. by exists y.
  - apply foldl_set_block_notin.
    intros ([p b] & Hp & (x' & z' & _ & Hc)%elem_of_clear_calls)
             %list_elem_of_fmap.
    simpl in Hp. subst p.
    apply elem_of_column_calls in Hc as (_ & y' & [= <- <- <-] & Hc).
    by apply Hy.
Qed.

Lemma clear_area_final_world_witness :
  in_rect example_rect 0 0 /\
  world (exec (clear_area (flat_array 2 2 3) example_rect example_area)
              example_state) (0, 1, 0) = air /\
  world (exec (clear_area (flat_array 2 2 3) example_rect example_area)
              example_state) (0, 0, 0) = mkBlock "minecraft:air".
Proof.
  assert (in_rect example_rect 0 0) as Hin by (split; simpl; lia).
  split; [exact Hin|].
  pose proof (clear_area_final_world (flat_array 2 2 3) example_rect
                example_area example_state (flat_array 2 2 3)
                (flat_array 2 2 5) eq_refl eq_refl
                ltac:(split; simpl; lia) ltac:(split; simpl; lia)) as H.
  split.
  - rewrite (H 0 1 0 Hin). reflexivity.
  - rewrite (H 0 0 0 Hin). reflexivity.
Defined.

(** ** Index errors in [clear_area] *)

Lemma never_raises_ret {A} (a : A) : never_raises (mret a : M A).
Proof. intros st. by exists a. Qed.

Lemma never_raises_bind {A B} (m : M A) (k : A -> M B) :
  never_raises m -> (forall a, never_raises (k a)) -> never_raises (m ≫= k).
Proof.
  intros Hm Hk st. destruct (Hm st) as [a Ha].
  unfold result, mbind, M_bind in *.
  destruct (m st) as [st1 r]; simpl in *. subst r. apply Hk.
Qed.

Lemma never_raises_for {A} (l : list A) (body : A -> M unit) :
  (forall x, never_raises (body x)) -> never_raises (for_ l body).
Proof.
  intros Hb. induction l as [|x l IH]; simpl.
  - apply never_raises_ret.
  - apply never_raises_bind; auto.
Qed.

Lemma never_raises_placeBlock p b : never_raises (placeBlock p b).
Proof. intros st. by exists tt. Qed.

Lemma never_raises_getBlock p : never_raises (getBlock p).
Proof. intros st. by eexists. Qed.

Lemma never_raises_descent x z start block :
  never_raises (descent x z start block).
Proof.
  intros st. unfold result.
  destruct (descent_run x z start block st) as (n & c' & _ & _ & ->).
  by exists c'.
Qed.

Lemma axis_index_nonneg n i :
  0 <= i -> axis_index n i = if decide (i < n) then Some i else None.
Proof.
  intros Hi. unfold axis_index.
  destruct (decide (0 <= i < n)), (decide (i < n)); try lia; try done.
  by rewrite decide_False by lia.
Qed.

(** A loop raises [e] when each turn of its body either returns or raises
    [e], whatever the store, and some turn raises [e] in every store. *)
Lemma for_raises {A} (l : list A) (body : A -> M unit) e a :
  a ∈ l ->
  (forall st, result (body a) st = Raise e) ->
  (forall x st, x ∈ l ->
     result (body x) st = Ok tt \/ result (body x) st = Raise e) ->
  forall st, result (for_ l body) st = Raise e.
Proof.
  intros Ha Hraise. induction l as [|x l IH]; intros Hall st.
  { by apply elem_of_nil in Ha. }
  simpl. unfold result, mbind, M_bind.
  destruct (Hall x st ltac:(by left)) as [Hx|Hx]; unfold result in Hx;
    destruct (body x st) as [st1 r] eqn:Hb; simpl in *; subst r; [|done].
  apply elem_of_cons in Ha as [->|Ha].
  - specialize (Hraise st). unfold result in Hraise.
    rewrite Hb in Hraise. done.
  - apply IH; [done|]. intros y st' Hy. apply Hall. by right.
Qed.

(** The body of the loops of [clear_area] for one column returns when both
    arrays have a cell for the column and raises [IndexError] otherwise. *)
Lemma clear_column_result bottom top i j x z st :
  0 <= i -> 0 <= j ->
  result
    (start ← array_get bottom i j;
     end_ ← array_get top i j;
     block ← getBlock (x, start - 1, z);
     '(start, block) ← descent x z start block;
     (if contains "dirt" (id block)
      then placeBlock (x, start - 1, z) air
      else mret tt) ;;
     for_ (range start end_) (fun y => placeBlock (x, y, z) air)) st
  = if decide ((i < (shape bottom).1 /\ j < (shape bottom).2) /\
               (i < (shape top).1 /\ j < (shape top).2))
    then Ok tt else Raise IndexError.
Proof.
  intros Hi Hj.
  assert (forall start end_,
            never_raises
              (block ← getBlock (x, start - 1, z);
               '(start, block) ← descent x z start block;
               (if contains "dirt" (id block)
                then placeBlock (x, start - 1, z) air
                else mret tt) ;;
               for_ (range start end_) (fun y => placeBlock (x, y, z) air)))
    as Hrest.
  { intros start end_.
    apply never_raises_bind; [apply never_raises_getBlock|intros block].
    apply never_raises_bind; [apply never_raises_descent|intros [s b]].
    apply never_raises_bind.
    - destruct (contains _ _);
        [apply never_raises_placeBlock|apply never_raises_ret].
    - intros _. apply never_raises_for. intros y.
      apply never_raises_placeBlock. }
  unfold result, mbind at 1, M_bind at 1, array_get at 1.
  rewrite !axis_index_nonneg by done.
  destruct (decide (i < (shape bottom).1)) as [Hb1|Hb1];
    [|by rewrite decide_False by tauto].
  destruct (decide (j < (shape bottom).2)) as [Hb2|Hb2];
    [|by rewrite decide_False by tauto].
  unfold mbind at 1, M_bind at 1, array_get at 1.
  rewrite !axis_index_nonneg by done.
  destruct (decide (i < (shape top).1)) as [Ht1|Ht1];
    [|by rewrite decide_False by tauto].
  destruct (decide (j < (shape top).2)) as [Ht2|Ht2];
    [|by rewrite decide_False by tauto].
  rewrite decide_True by tauto.
  destruct (Hrest (item bottom i j) (item top i j) st) as [[] Hok].
  exact Hok.
Qed.

Lemma result_bind_raise {A B} (m : M A) (k : A -> M B) st e :
  result m st = Raise e -> result (m ≫= k) st = Raise e.
Proof.
  unfold result, mbind, M_bind. destruct (m st) as [st1 r]. simpl.
  by intros ->.
Qed.

Lemma for_ok_or_raises {A} (l : list A) (body : A -> M unit) e :
  (forall x st, x ∈ l ->
     result (body x) st = Ok tt \/ result (body x) st = Raise e) ->
  forall st, result (for_ l body) st = Ok tt \/
             result (for_ l body) st = Raise e.
Proof.
  induction l as [|x l IH]; intros Hall st; [by left|].
  simpl. unfold result, mbind, M_bind.
  destruct (Hall x st ltac:(by left)) as [Hx|Hx]; unfold result in Hx;
    destruct (body x st) as [st1 r] eqn:Hb; simpl in *; subst r;
    [|by right].
  apply IH. intros y st' Hy. apply Hall. by right.
Qed.

(** X8: With both heightmaps there and a rectangle that has columns,
    [clear_area] returns exactly when both arrays cover the rectangle, and
    raises [IndexError] otherwise. *)
Theorem clear_area_index_error heightmap buildRect build_area st bottom top :
  heightmaps st !! "MOTION_BLOCKING_NO_LEAVES" = Some bottom ->
  heightmaps st !! "WORLD_SURFACE" = Some top ->
  0 < (Rect.size buildRect).1 -> 0 < (Rect.size buildRect).2 ->
  result (clear_area heightmap buildRect build_area) st
  = if decide (((Rect.size buildRect).1 <= (shape bottom).1 /\
                (Rect.size buildRect).2 <= (shape bottom).2) /\
               ((Rect.size buildRect).1 <= (shape top).1 /\
                (Rect.size buildRect).2 <= (shape top).2))
    then Ok tt else Raise IndexError.
Proof.
  intros Hbot Htop Hsx Hsz. destruct (decide _) as [[Hb Ht]|Hno].
  { by destruct (clear_area_run heightmap buildRect build_area st bottom top
                   Hbot Htop Hb Ht) as [-> _]. }
  unfold clear_area, result.
  assert (heightmap_get "MOTION_BLOCKING_NO_LEAVES" st = (st, Ok bottom)) as H1.
  { unfold heightmap_get. by rewrite Hbot. }
  assert (heightmap_get "WORLD_SURFACE" st = (st, Ok top)) as H2.
  { unfold heightmap_get. by rewrite Htop. }
  rewrite (bind_ok _ _ _ _ _ H1), (bind_ok _ _ _ _ _ H2).
  set (m1 := Z.min (shape bottom).1 (shape top).1).
  set (m2 := Z.min (shape bottom).2 (shape top).2).
  set (i0 := if decide (m1 < (Rect.size buildRect).1)
             then Z.max m1 0 else 0).
  set (j0 := if decide (m2 < (Rect.size buildRect).2)
             then Z.max m2 0 else 0).
  assert (0 <= i0 < (Rect.size buildRect).1) as Hi0.
  { unfold i0. destruct (decide (m1 < _)); lia. }
  assert (0 <= j0 < (Rect.size buildRect).2) as Hj0.
  { unfold j0. destruct (decide (m2 < _)); lia. }
  assert (~ ((i0 < (shape bottom).1 /\ j0 < (shape bottom).2) /\
             (i0 < (shape top).1 /\ j0 < (shape top).2))) as Hfail.
  { clear Hi0 Hj0. unfold i0, j0, m1, m2.
    destruct (decide (_ `min` _ < (Rect.size buildRect).1)),
             (decide (_ `min` _ < (Rect.size buildRect).2)); lia. }
  match goal with |- snd ((?loops ≫= _) st) = _ =>
    assert (result loops st = Raise IndexError) as Hloops end.
  { apply (for_raises _ _ _ ((Rect._offset buildRect).1 + i0)).
    - apply elem_of_range. lia.
    - intros st'.
      apply (for_raises _ _ _ ((Rect._offset buildRect).2 + j0)).
      + apply elem_of_range. lia.
      + intros st''. rewrite clear_column_result by lia.
        apply decide_False. intros H. apply Hfail.
        by replace ((Rect._offset buildRect).1 + i0
                    - (Rect._offset buildRect).1) with i0 in H by lia;
           replace ((Rect._offset buildRect).2 + j0
                    - (Rect._offset buildRect).2) with j0 in H by lia.
      + intros z st'' Hz%elem_of_range.
        rewrite clear_column_result by lia. case_decide; auto.
    - intros x st' Hx%elem_of_range. apply for_ok_or_raises.
      intros z st'' Hz%elem_of_range.
      rewrite clear_column_result by lia. case_decide; auto. }
  by apply result_bind_raise.
Qed.

Lemma clear_area_index_error_witness :
  (0 < (Rect.size example_rect).1 /\ 0 < (Rect.size example_rect).2) /\
  result (clear_area (flat_array 2 2 3) example_rect example_area)
         narrow_state
  = Raise IndexError.
Proof.
  split; [simpl; lia|].
  rewrite (clear_area_index_error (flat_array 2 2 3) example_rect
             example_area narrow_state (flat_array 2 1 3) (flat_array 2 2 5)
             eq_refl eq_refl ltac:(simpl; lia) ltac:(simpl; lia)).
  reflexivity.
Defined.

(** ** What [flatten_area] prints *)

Lemma apply_effects_nil st : apply_effects [] [] st = st.
Proof. destruct st. unfold apply_effects. simpl. by rewrite !app_nil_r. Qed.

Lemma apply_effects_app cs1 cs2 o1 o2 st :
  apply_effects cs2 o2 (apply_effects cs1 o1 st)
  = apply_effects (cs1 ++ cs2) (o1 ++ o2) st.
Proof. unfold apply_effects. simpl. by rewrite foldl_app, !app_assoc. Qed.

Lemma for_acts_inv {A} (I : A -> State -> Prop) (l : list A)
    (body : A -> M unit) (f : A -> list (Pos * Block))
    (g : A -> list (list PyVal)) :
  NoDup l ->
  (forall a st, a ∈ l -> I a st ->
     body a st = (apply_effects (f a) (g a) st, Ok tt)) ->
  (forall a b st, a ∈ l -> b ∈ l -> a <> b ->
     I b st -> I b (apply_effects (f a) (g a) st)) ->
  forall st, (forall a, a ∈ l -> I a st) ->
    for_ l body st = (apply_effects (l ≫= f) (l ≫= g) st, Ok tt).
Proof.
  intros Hnd. induction Hnd as [|a l Ha Hnd IH]; intros Hbody Hkeep st HI.
  { simpl. by rewrite apply_effects_nil. }
  simpl. rewrite (bind_ok _ _ _ _ _ (Hbody a st ltac:(by left)
                                          (HI a ltac:(by left)))).
  rewrite IH.
  - by rewrite apply_effects_app.
  - intros b st' Hb. apply Hbody. by right.
  - intros b c st' Hb Hc. apply Hkeep; by right.
  - intros b Hb. apply Hkeep; [by left|by right| |apply HI; by right].
    intros ->. done.
Qed.

Lemma flatten_loops buildRect build_area st st' :
  (forall x z, world st' (x, (Box.begin build_area).1.2 - 1, z)
               = world st (x, (Box.begin build_area).1.2 - 1, z)) ->
  for_ (range (Rect._offset buildRect).1
              ((Rect._offset buildRect).1 + (Rect.size buildRect).1))
    (fun x =>
     for_ (range (Rect._offset buildRect).2
                 ((Rect._offset buildRect).2 + (Rect.size buildRect).2))
       (fun z =>
        block ← getBlock (x, (Box.begin build_area).1.2 - 1, z);
        print [PStr (id block)] ;;
        placeBlock (x, (Box.begin build_area).1.2 - 1, z) grass_block)) st'
  = (apply_effects (flatten_calls buildRect build_area)
                   (flatten_lines (world st) buildRect build_area) st',
     Ok tt).
Proof.
  intros Hsame. unfold flatten_calls, flatten_lines.
  set (min := (Box.begin build_area).1.2 - 1) in *.
  apply (for_acts_inv
           (fun x s => forall z, world s (x, min, z) = world st (x, min, z))).
  - apply NoDup_range.
  - intros x s _ HI.
    apply (for_acts_inv
             (fun z s => world s (x, min, z) = world st (x, min, z))).
    + apply NoDup_range.
    + intros z s' _ Hz. unfold mbind, M_bind, getBlock, print, placeBlock,
        apply_effects. simpl. by rewrite Hz.
    + intros z1 z2 s' _ _ Hne Hz. simpl. unfold set_block.
      rewrite decide_False by congruence. done.
    + intros z _. apply HI.
  - intros x1 x2 s _ _ Hne HI z. simpl.
    rewrite foldl_set_block_notin; [apply HI|].
    intros (c & Hc & Hin)%list_elem_of_fmap.
    apply list_elem_of_bind in Hin as (z' & Hin & _).
    apply list_elem_of_singleton in Hin. subst c. simpl in Hc. congruence.
  - intros x _ z. apply Hsame.
Qed.

(** X9: [flatten_area] prints the two heights, then for each column, in loop
    order, the id the block at the flattened height had before the run (each
    block is read before it is replaced, and no other column touches it),
    then the closing line. *)
Theorem flatten_area_prints heightmap buildRect build_area st :
  let min := (Box.begin build_area).1.2 - 1 in
  stdout (exec (flatten_area heightmap buildRect build_area) st)
  = stdout st
    ++ [[PStr "max height is: "; PInt ((Box.size build_area).1.2 + min)];
        [PStr "min height is: "; PInt min]]
    ++ flatten_lines (world st) buildRect build_area
    ++ [[PStr "Build area flattened!"]].
Proof.
  intros min. unfold flatten_area, exec. fold min. cbv zeta.
  set (l1 := [PStr "max height is: "; PInt ((Box.size build_area).1.2 + min)]).
  set (l2 := [PStr "min height is: "; PInt min]).
  set (st1 := mkState (world st) (placed st) (heightmaps st)
                (stdout st ++ [l1]) (rng st) (rng_pos st)).
  set (st2 := mkState (world st) (placed st) (heightmaps st)
                ((stdout st ++ [l1]) ++ [l2]) (rng st) (rng_pos st)).
  rewrite (bind_ok (print l1) _ st st1 tt eq_refl).
  rewrite (bind_ok (print l2) _ st1 st2 tt eq_refl).
  rewrite (bind_ok _ _ st2 _ _
             (flatten_loops buildRect build_area st st2
                (fun x z => eq_refl))).
  simpl. by rewrite <- !app_assoc.
Qed.

Example flatten_area_prints_example :
  stdout (exec (flatten_area (flat_array 2 2 3) (Rect.mk (0, 0) (1, 2))
                  (Box.mk (0, 2, 0) (1, 9, 2))) example_state)
  = [[PStr "max height is: "; PInt 10]; [PStr "min height is: "; PInt 1];
     [PStr "minecraft:dirt"]; [PStr "minecraft:air"];
     [PStr "Build area flattened!"]].
Proof. vm_compute. reflexivity. Qed.

(** ** The leaf scatter, draw by draw *)

Lemma sprinkle_app draws pos s1 s2 :
  sprinkle draws pos (s1 ++ s2)
  = sprinkle draws pos s1 ++ sprinkle draws (pos + length s1) s2.
Proof.
  revert pos. induction s1 as [|c s1 IH]; intros pos; simpl.
  - by rewrite Nat.add_0_r.
  - rewrite IH, <- app_assoc. do 3 f_equal. lia.
Qed.

Lemma sprinkle_sublist draws pos sites :
  sprinkle draws pos sites `sublist_of` sites.
Proof.
  revert pos. induction sites as [|c sites IH]; intros pos; simpl; [done|].
  destruct (bool_decide _); simpl.
  - by apply sublist_skip.
  - by apply sublist_cons.
Qed.

Lemma draws_for_ret : draws_for (mret tt) [].
Proof.
  intros st. destruct st. simpl. unfold mret, M_ret. simpl.
  by rewrite app_nil_r, Nat.add_0_r.
Qed.

Lemma draws_for_bind m1 m2 s1 s2 :
  draws_for m1 s1 -> draws_for m2 s2 -> draws_for (m1 ;; m2) (s1 ++ s2).
Proof.
  intros H1 H2 st. rewrite (bind_ok _ _ _ _ _ (H1 st)), H2. simpl.
  rewrite sprinkle_app, foldl_app, length_app, !app_assoc, Nat.add_assoc.
  done.
Qed.

Lemma draws_for_for {A} (l : list A) (body : A -> M unit) f :
  (forall x, x ∈ l -> draws_for (body x) (f x)) ->
  draws_for (for_ l body) (l ≫= f).
Proof.
  induction l as [|x l IH]; intros Hb; simpl.
  - apply draws_for_ret.
  - apply draws_for_bind.
    + apply Hb. by left.
    + apply IH. intros y Hy. apply Hb. by right.
Qed.

Lemma draws_for_site p b :
  draws_for (hit ← random_lt leaf_density;
             if (hit : bool) then placeBlock p b else mret tt) [(p, b)].
Proof.
  intros st. unfold mbind, M_bind, random_lt. simpl.
  destruct (bool_decide _); simpl.
  - unfold placeBlock. simpl. by rewrite Nat.add_1_r.
  - unfold mret, M_ret. by rewrite app_nil_r, Nat.add_1_r.
Qed.

Lemma leaf_pass_draws sp ph r hh :
  draws_for (leaf_pass sp ph r hh) (leaf_sites sp ph r hh).
Proof.
  apply draws_for_for; intros y _. apply draws_for_for; intros x _.
  apply draws_for_for; intros z _.
  destruct (_ || _); [apply draws_for_site|apply draws_for_ret].
Qed.

(** ** The calls of the remaining passes *)

Lemma elem_of_trunk_calls sp th p b :
  (p, b) ∈ trunk_calls sp th <->
  b = oak_log /\ exists y, 0 <= y < th /\ p = vadd sp (0, y, 0).
Proof.
  unfold trunk_calls. rewrite list_elem_of_bind. split.
  - intros (y & [= -> ->]%list_elem_of_singleton & Hy%elem_of_range).
    split; [done|]. exists y. split; [lia|done].
  - intros (-> & y & Hy & ->). exists y.
    split; [by apply list_elem_of_singleton|apply elem_of_range; lia].
Qed.

Lemma elem_of_ladder_calls sp ph p b :
  (p, b) ∈ ladder_calls sp ph <->
  b = ladder /\ exists y, 1 <= y < ph + 3 /\ p = vadd sp (0, y, -1).
Proof.
  unfold ladder_calls. rewrite list_elem_of_bind. split.
  - intros (y & [= -> ->]%list_elem_of_singleton & Hy%elem_of_range).
    split; [done|]. by exists y.
  - intros (-> & y & Hy & ->). exists y.
    split; [by apply list_elem_of_singleton|by apply elem_of_range].
Qed.

Lemma elem_of_roof_calls sp ph r hh p b :
  (p, b) ∈ roof_calls sp ph r hh <->
  b = oak_slab /\
  exists x z, - r - 1 <= x <= r + 1 /\ - r - 1 <= z <= r + 1 /\
              p = vadd sp (x, ph + hh, z).
Proof.
  unfold roof_calls. rewrite list_elem_of_bind. split.
  - intros (x & (z & [= -> ->]%list_elem_of_singleton & Hz%elem_of_range)
                  %list_elem_of_bind & Hx%elem_of_range).
    split; [done|]. exists x, z. split_and!; (lia || done).
  - intros (-> & x & z & Hx & Hz & ->). exists x.
    split; [|apply elem_of_range; lia].
    apply list_elem_of_bind. exists z.
    split; [by apply list_elem_of_singleton|apply elem_of_range; lia].
Qed.

Lemma elem_of_leaf_sites sp ph r hh p b :
  (p, b) ∈ leaf_sites sp ph r hh <->
  b = spruce_leaves /\
  exists y x z, 0 <= y < hh + 2 /\
    - r - 1 <= x <= r + 1 /\ - r - 1 <= z <= r + 1 /\
    (x = - r - 1 \/ x = r + 1 \/ z = - r - 1 \/ z = r + 1 \/ y = hh + 1) /\
    p = vadd sp (x, ph + y, z).
Proof.
  unfold leaf_sites. rewrite list_elem_of_bind.
  assert (forall y x z,
            (in2 x (- r - 1) (r + 1) || in2 z (- r - 1) (r + 1))
            || bool_decide (y = hh + 1) = true <->
            (x = - r - 1 \/ x = r + 1 \/ z = - r - 1 \/ z = r + 1 \/
             y = hh + 1)) as Hcond.
  { intros y x z. rewrite !orb_true_iff, !in2_spec, bool_decide_eq_true.
    tauto. }
  split.
  - intros (y & (x & (z & H & Hz%elem_of_range)%list_elem_of_bind
                  & Hx%elem_of_range)%list_elem_of_bind & Hy%elem_of_range).
    destruct (_ || _) eqn:Hc; [|by apply elem_of_nil in H].
    apply list_elem_of_singleton in H as [= -> ->]. apply Hcond in Hc.
    split; [done|]. exists y, x, z. split_and!; (lia || done).
  - intros (-> & y & x & z & Hy & Hx & Hz & Hc & ->). exists y.
    split; [|apply elem_of_range; lia].
    apply list_elem_of_bind. exists x. split; [|apply elem_of_range; lia].
    apply list_elem_of_bind. exists z. split; [|apply elem_of_range; lia].
    apply Hcond in Hc. rewrite Hc. by apply list_elem_of_singleton.
Qed.

Lemma elem_of_window_calls sp ph r hh p b :
  (p, b) ∈ window_calls sp ph r hh <->
  b = glass /\
  exists y x z, 1 <= y < hh - 1 /\
    - r <= x < r /\ (x + r) `mod` 2 = 0 /\
    - r <= z < r /\ (z + r) `mod` 2 = 0 /\
    (x = - r \/ z = - r) /\
    p = vadd sp (x, ph + y, z).
Proof.
  unfold window_calls. rewrite list_elem_of_bind.
  assert (forall x z,
            - r <= x < r -> (x + r) `mod` 2 = 0 ->
            - r <= z < r -> (z + r) `mod` 2 = 0 ->
            (in2 x (- r) (r - 1)
             || (in2 z (- r) (r - 1)
                 && (negb (bool_decide (x = r))
                     || negb (bool_decide (z = - r)))) = true <->
             (x = - r \/ z = - r))) as Hcond.
  { intros x z Hx Hxm Hz Hzm.
    rewrite orb_true_iff, andb_true_iff, orb_true_iff, !in2_spec,
      !negb_true_iff, !bool_decide_eq_false.
    split.
    - intros [[?|?]|[[?|?] _]];
        [by left|exfalso|by right|exfalso];
        subst; Z.div_mod_to_equations; lia.
    - intros [?|?]; [by left; left|right].
      split; [by left|left; lia]. }
  split.
  - intros (y & (x & (z & H & Hz)%list_elem_of_bind & Hx)%list_elem_of_bind
              & Hy%elem_of_range).
    apply elem_of_range_step in Hx as [Hx Hxm]; [|lia].
    apply elem_of_range_step in Hz as [Hz Hzm]; [|lia].
    replace (x - - r) with (x + r) in Hxm by lia.
    replace (z - - r) with (z + r) in Hzm by lia.
    destruct (_ || _) eqn:Hc; [|by apply elem_of_nil in H].
    apply list_elem_of_singleton in H as [= -> ->].
    apply Hcond in Hc; [|done..].
    split; [done|]. exists y, x, z. split_and!; (lia || done).
  - intros (-> & y & x & z & Hy & Hx & Hxm & Hz & Hzm & Hc & ->). exists y.
    split; [|apply elem_of_range; lia].
    apply list_elem_of_bind. exists x.
    split; [|apply elem_of_range_step; [lia|];
             by replace (x - - r) with (x + r) by lia].
    apply list_elem_of_bind. exists z.
    split; [|apply elem_of_range_step; [lia|];
             by replace (z - - r) with (z + r) by lia].
    apply Hcond in Hc; [|done..]. rewrite Hc.
    by apply list_elem_of_singleton.
Qed.

(** ** Windows *)

(** X10: The window pass places glass only on the two faces [x = -r] and
    [z = -r] of the house, at every second block from the corner, at the
    levels [platform_height + y] with [1 <= y < house_height - 1]: the
    offsets run over [-r, -r + 2, ...] below [r], so the tests against
    [r - 1] never hold and the clause [(x != r or z != -r)] never excludes
    a block. *)
Theorem window_pass_two_faces starting_pos platform_height platform_radius
    house_height st p b :
  (p, b) ∈ calls_of (window_pass starting_pos platform_height platform_radius
                       house_height) st <->
  b = glass /\
  exists y x z,
    1 <= y < house_height - 1 /\
    - platform_radius <= x < platform_radius /\
    (x + platform_radius) `mod` 2 = 0 /\
    - platform_radius <= z < platform_radius /\
    (z + platform_radius) `mod` 2 = 0 /\
    (x = - platform_radius \/ z = - platform_radius) /\
    p = vadd starting_pos (x, platform_height + y, z).
Proof.
  rewrite (emits_calls_of _ _ st (window_pass_emits _ _ _ _)).
  apply elem_of_window_calls.
Qed.

(** X11: Every block of glass goes where the wall pass had put a block of the
    wall material: windows replace perimeter blocks, never the air inside,
    and never reach above the walls. *)
Theorem windows_replace_walls starting_pos platform_height platform_radius
    house_height block_type st st' p b :
  (p, b) ∈ calls_of (window_pass starting_pos platform_height platform_radius
                       house_height) st ->
  (p, block_type) ∈ calls_of (wall_pass starting_pos platform_height
                                platform_radius house_height block_type) st'.
Proof.
  rewrite (emits_calls_of _ _ st (window_pass_emits _ _ _ _)).
  rewrite (emits_calls_of _ _ st' (wall_pass_emits _ _ _ _ _)).
  intros (_ & y & x & z & Hy & Hx & _ & Hz & _ & Hface & ->)
           %elem_of_window_calls.
  apply elem_of_wall_calls. exists (y - 1), x, z.
  split_and!; try lia.
  - f_equal. f_equal. f_equal. lia.
  - assert (in2 x (- platform_radius) platform_radius
            || in2 z (- platform_radius) platform_radius = true) as ->; [|done].
    rewrite orb_true_iff, !in2_spec. tauto.
Qed.

Lemma windows_replace_walls_witness :
  ((-3, 11, -1), glass)
  ∈ calls_of (window_pass (0, 0, 0) 10 3 4) (blank_state ∅ 0) /\
  ((-3, 11, -1), oak_log)
  ∈ calls_of (wall_pass (0, 0, 0) 10 3 4 oak_log) (blank_state ∅ 0).
Proof.
  assert (((-3, 11, -1), glass)
          ∈ calls_of (window_pass (0, 0, 0) 10 3 4) (blank_state ∅ 0)) as H.
  { apply (bool_decide_unpack _). vm_compute. exact I. }
  split; [exact H|].
  apply (windows_replace_walls (0, 0, 0) 10 3 4 oak_log (blank_state ∅ 0)
           (blank_state ∅ 0) (-3, 11, -1) glass H).
Defined.

(** ** Leaves *)

Lemma elem_of_sprinkle draws pos sites c :
  c ∈ sprinkle draws pos sites <->
  exists i : nat, sites !! i = Some c /\ draws (pos + i)%nat < leaf_density.
Proof.
  revert pos. induction sites as [|s sites IH]; intros pos; simpl.
  - split; [by intros ?%elem_of_nil|by intros (i & ? & _)].
  - rewrite elem_of_app, IH. split.
    + intros [H|(i & Hi & Hd)].
      * destruct (bool_decide _) eqn:Hb; [|by apply elem_of_nil in H].
        apply list_elem_of_singleton in H as ->.
        apply bool_decide_eq_true in Hb. exists 0%nat.
        by rewrite Nat.add_0_r.
      * exists (S i). split; [done|].
        by replace (pos + S i)%nat with (S pos + i)%nat by lia.
    + intros ([|i] & Hi & Hd).
      * left. injection Hi as ->. rewrite Nat.add_0_r in Hd.
        rewrite bool_decide_eq_true_2 by done. by left.
      * right. exists i. split; [done|].
        by replace (S pos + i)%nat with (pos + S i)%nat by lia.
Qed.

(** X12: The leaf pass makes one draw for each leaf site (the shell around the
    house and the layer above it), in loop order and whatever the outcomes,
    and places a leaf on a site exactly when its draw is below 0.5. *)
Theorem leaf_pass_draw_by_draw starting_pos platform_height platform_radius
    house_height st :
  let run := leaf_pass starting_pos platform_height platform_radius
               house_height in
  let sites := leaf_sites starting_pos platform_height platform_radius
                 house_height in
  result run st = Ok tt /\
  rng_pos (exec run st) = (rng_pos st + length sites)%nat /\
  calls_of run st `sublist_of` sites /\
  forall c,
    c ∈ calls_of run st <->
    exists i : nat,
      sites !! i = Some c /\ rng st (rng_pos st + i)%nat < leaf_density.
Proof.
  intros run sites. subst run sites.
  pose proof (leaf_pass_draws starting_pos platform_height platform_radius
                house_height st) as H.
  unfold result, calls_of, exec. rewrite H. simpl. rewrite drop_app_length.
  split_and!; [done|done|apply sprinkle_sublist|].
  intros c. apply elem_of_sprinkle.
Qed.

(** ** The finished house *)

Lemma foldl_set_block_app_notin cs1 cs2 w p :
  p ∉ cs2.*1 ->
  foldl (fun w c => set_block w c.1 c.2) w (cs1 ++ cs2) p
  = foldl (fun w c => set_block w c.1 c.2) w cs1 p.
Proof. intros Hp. rewrite foldl_app. by apply foldl_set_block_notin. Qed.

Lemma foldl_set_block_app_in cs1 cs2 w p b :
  (forall c, (p, c) ∈ cs2 -> c = b) -> p ∈ cs2.*1 ->
  foldl (fun w c => set_block w c.1 c.2) w (cs1 ++ cs2) p = b.
Proof. intros Hall Hp. rewrite foldl_app. by apply foldl_set_block_in. Qed.

(** The store after [build_treehouse]: the calls of the structure, then
    the leaves the draws select. *)
Lemma build_treehouse_world sp th ph r hh bt st :
  world (exec (build_treehouse sp th ph r hh bt) st)
  = foldl (fun w c => set_block w c.1 c.2) (world st)
      (structure_calls sp th ph r hh bt
       ++ sprinkle (rng st) (rng_pos st) (leaf_sites sp ph r hh)).
Proof.
  unfold build_treehouse, exec.
  rewrite (bind_ok _ _ _ _ _ (structure_passes_emits sp th ph r hh bt st)).
  rewrite (leaf_pass_draws sp ph r hh). simpl. by rewrite foldl_app.
Qed.

Lemma not_leaf_site sp ph r hh draws pos x y z :
  ~ (0 <= y - ph < hh + 2 /\
     - r - 1 <= x <= r + 1 /\ - r - 1 <= z <= r + 1 /\
     (x = - r - 1 \/ x = r + 1 \/ z = - r - 1 \/ z = r + 1 \/
      y - ph = hh + 1)) ->
  vadd sp (x, y, z) ∉ (sprinkle draws pos (leaf_sites sp ph r hh)).*1.
Proof.
  intros Hno ([q b] & Hq & Hin)%list_elem_of_fmap. simpl in Hq. subst q.
  pose proof (elem_of_sublist _ _ _ Hin (sprinkle_sublist _ _ _)) as Hin'.
  apply elem_of_leaf_sites in Hin'
    as (_ & y' & x' & z' & Hy & Hx & Hz & Hc & Hp).
  apply vadd_inj in Hp. injection Hp as -> -> ->. apply Hno.
  replace (ph + y' - ph) with y' by lia. done.
Qed.

(** X13: The door is still there at the end: for a radius of at least 1 and a
    house at least 1 high, no later call targets the voxel of the fence
    gate. *)
Theorem door_survives starting_pos tree_height platform_height
    platform_radius house_height block_type st :
  1 <= platform_radius -> 1 <= house_height ->
  world (exec (build_treehouse starting_pos tree_height platform_height
                 platform_radius house_height block_type) st)
        (vadd starting_pos (1, platform_height + 1, - platform_radius))
  = oak_fence_gate.
Proof.
  intros Hr Hh. rewrite build_treehouse_world.
  rewrite foldl_set_block_app_notin by (apply not_leaf_site; lia).
  unfold structure_calls. rewrite !app_assoc.
  apply foldl_set_block_app_in.
  - by intros c [= ->]%list_elem_of_singleton.
  - unfold door_calls. csimpl. by left.
Qed.

Lemma door_survives_witness :
  (1 <= 3 /\ 1 <= 4) /\
  world (exec (tree_house_main example_area) (blank_state ∅ 0)) (1, 11, -3)
  = oak_fence_gate.
Proof.
  split; [lia|].
  apply (door_survives (0, 0, 0) 15 10 3 4 oak_log (blank_state ∅ 0)
           ltac:(lia) ltac:(lia)).
Defined.

Lemma not_door_site sp ph r x y z :
  x <> 1 \/ y <> ph + 1 \/ z <> - r ->
  vadd sp (x, y, z) ∉ (door_calls sp ph r).*1.
Proof.
  intros Hne. unfold door_calls. csimpl.
  intros Hp%list_elem_of_singleton%vadd_inj. injection Hp as -> -> ->. lia.
Qed.

Lemma not_ladder_site sp ph x y z :
  x <> 0 \/ z <> -1 \/ ~ (1 <= y < ph + 3) ->
  vadd sp (x, y, z) ∉ (ladder_calls sp ph).*1.
Proof.
  intros Hne ([q b] & Hq & Hin)%list_elem_of_fmap. simpl in Hq. subst q.
  apply elem_of_ladder_calls in Hin as (_ & y' & Hy & Hp%vadd_inj).
  injection Hp as -> -> ->. lia.
Qed.

Lemma not_roof_site sp ph r hh x y z :
  y <> ph + hh \/ ~ (- r - 1 <= x <= r + 1) \/ ~ (- r - 1 <= z <= r + 1) ->
  vadd sp (x, y, z) ∉ (roof_calls sp ph r hh).*1.
Proof.
  intros Hne ([q b] & Hq & Hin)%list_elem_of_fmap. simpl in Hq. subst q.
  apply elem_of_roof_calls in Hin as (_ & x' & z' & Hx & Hz & Hp%vadd_inj).
  injection Hp as -> -> ->. lia.
Qed.

Lemma not_window_site sp ph r hh x y z :
  ~ (- r <= x < r /\ - r <= z < r /\ (x = - r \/ z = - r)) ->
  vadd sp (x, y, z) ∉ (window_calls sp ph r hh).*1.
Proof.
  intros Hne ([q b] & Hq & Hin)%list_elem_of_fmap. simpl in Hq. subst q.
  apply elem_of_window_calls in Hin
    as (_ & y' & x' & z' & _ & Hx & _ & Hz & _ & Hf & Hp%vadd_inj).
  injection Hp as -> -> ->. apply Hne. done.
Qed.

(** X14: The ladder is still there at the end, from one block above the ground
    through the platform to two blocks into the house: for a radius of at
    least 1 and a house at least 2 high no later call targets it. *)
Theorem ladder_survives starting_pos tree_height platform_height
    platform_radius house_height block_type st y :
  1 <= platform_radius -> 2 <= house_height ->
  1 <= y < platform_height + 3 ->
  world (exec (build_treehouse starting_pos tree_height platform_height
                 platform_radius house_height block_type) st)
        (vadd starting_pos (0, y, -1))
  = ladder.
Proof.
  intros Hr Hh Hy. rewrite build_treehouse_world.
  rewrite foldl_set_block_app_notin by (apply not_leaf_site; lia).
  unfold structure_calls. rewrite !app_assoc.
  rewrite foldl_set_block_app_notin by (apply not_door_site; lia).
  apply foldl_set_block_app_in.
  - by intros c [-> _]%elem_of_ladder_calls.
  - apply list_elem_of_fmap. exists (vadd starting_pos (0, y, -1), ladder).
    split; [done|]. apply elem_of_ladder_calls. eauto.
Qed.

Lemma ladder_survives_witness :
  (1 <= 3 /\ 2 <= 4 /\ 1 <= 10 < 10 + 3) /\
  world (exec (tree_house_main example_area) (blank_state ∅ 0)) (0, 10, -1)
  = ladder.
Proof.
  split; [lia|].
  apply (ladder_survives (0, 0, 0) 15 10 3 4 oak_log (blank_state ∅ 0) 10
           ltac:(lia) ltac:(lia) ltac:(lia)).
Defined.

(** X15: The roof closes the house at the level of its top wall layer: for a
    house at least 3 high, every voxel above the platform square at height
    [platform_height + house_height] ends as an [oak_slab] (the top layer of
    the walls and the trunk are replaced there), and the rim of the roof
    ends as a slab or as leaves. *)
Theorem roof_closes_house starting_pos tree_height platform_height
    platform_radius house_height block_type st x z :
  3 <= house_height ->
  - platform_radius - 1 <= x <= platform_radius + 1 ->
  - platform_radius - 1 <= z <= platform_radius + 1 ->
  let final :=
    world (exec (build_treehouse starting_pos tree_height platform_height
                   platform_radius house_height block_type) st)
          (vadd starting_pos (x, platform_height + house_height, z)) in
  (final = oak_slab \/ final = spruce_leaves) /\
  (- platform_radius <= x <= platform_radius ->
   - platform_radius <= z <= platform_radius -> final = oak_slab).
Proof.
  intros Hh Hx Hz final. subst final. rewrite build_treehouse_world.
  set (p := vadd starting_pos (x, platform_height + house_height, z)).
  set (leaves := sprinkle _ _ _).
  assert (foldl (fun w c => set_block w c.1 c.2) (world st)
            (structure_calls starting_pos tree_height platform_height
               platform_radius house_height block_type) p = oak_slab)
    as Hslab.
  { unfold structure_calls, p. rewrite !app_assoc.
    rewrite foldl_set_block_app_notin by (apply not_door_site; lia).
    rewrite foldl_set_block_app_notin by (apply not_ladder_site; lia).
    apply foldl_set_block_app_in.
    - by intros c [-> _]%elem_of_roof_calls.
    - apply list_elem_of_fmap. eexists (_, oak_slab).
      split; [done|]. apply elem_of_roof_calls. eauto 10. }
  split.
  - destruct (decide (p ∈ leaves.*1)) as [Hin|Hout].
    + right. apply foldl_set_block_app_in; [|done].
      intros c Hc.
      pose proof (elem_of_sublist _ _ _ Hc (sprinkle_sublist _ _ _)) as Hc'.
      by apply elem_of_leaf_sites in Hc' as [-> _].
    + left. by rewrite foldl_set_block_app_notin.
  - intros Hxi Hzi.
    rewrite foldl_set_block_app_notin by (apply not_leaf_site; lia).
    exact Hslab.
Qed.

Lemma roof_closes_house_witness :
  (3 <= 4 /\ -3 - 1 <= 0 <= 3 + 1) /\
  world (exec (tree_house_main example_area) (blank_state ∅ 0)) (0, 14, 0)
  = oak_slab.
Proof.
  split; [lia|].
  apply (roof_closes_house (0, 0, 0) 15 10 3 4 oak_log (blank_state ∅ 0) 0 0
           ltac:(lia) ltac:(lia) ltac:(lia)); lia.
Defined.

(** X16: The trunk stands where no later pass replaces it: for a radius that is
    not negative, every trunk voxel other than the one at roof level and the
    one in the leaf layer above the roof ends as an [oak_log], also inside
    the house, where the wall pass had put air. *)
Theorem trunk_survives starting_pos tree_height platform_height
    platform_radius house_height block_type st y :
  0 <= platform_radius ->
  0 <= y < tree_height ->
  y <> platform_height + house_height ->
  y <> platform_height + house_height + 1 ->
  world (exec (build_treehouse starting_pos tree_height platform_height
                 platform_radius house_height block_type) st)
        (vadd starting_pos (0, y, 0))
  = oak_log.
Proof.
  intros Hr Hy Hroof Htop. rewrite build_treehouse_world.
  rewrite foldl_set_block_app_notin by (apply not_leaf_site; lia).
  unfold structure_calls. rewrite !app_assoc.
  rewrite foldl_set_block_app_notin by (apply not_door_site; lia).
  rewrite foldl_set_block_app_notin by (apply not_ladder_site; lia).
  rewrite foldl_set_block_app_notin by (apply not_roof_site; lia).
  rewrite foldl_set_block_app_notin by (apply not_window_site; lia).
  apply foldl_set_block_app_in.
  - by intros c [-> _]%elem_of_trunk_calls.
  - apply list_elem_of_fmap. eexists (_, oak_log).
    split; [done|]. apply elem_of_trunk_calls. eauto.
Qed.

Lemma trunk_survives_witness :
  (0 <= 3 /\ 0 <= 12 < 15 /\ 12 <> 10 + 4 /\ 12 <> 10 + 4 + 1) /\
  world (exec (tree_house_main example_area) (blank_state ∅ 0)) (0, 12, 0)
  = oak_log.
Proof.
  split; [lia|].
  apply (trunk_survives (0, 0, 0) 15 10 3 4 oak_log (blank_state ∅ 0) 12
           ltac:(lia) ltac:(lia) ltac:(lia) ltac:(lia)).
Defined.
